(** * Growbox actuator arbitration: manual locks, control tick, pump runs

    A shallow embedding of the actuator core of the growbox backend:
    [shared_state.py] (the two shared dictionaries), [tasmota.py] (the relay
    command), [llm.py] ([_run_pump], [decide_actuators]) and [main.py]
    ([_auto_release], [toggle_device], [water_pump]).

    The shared dictionaries are finite maps inside one [world] record that
    every handler threads through a state-and-exception monad.  Daemon
    threads are entries of a thread table; a thread advances from one
    blocking call to the next when the scheduler picks it ([thread_step]).
    Handler bodies between two blocking calls are taken as atomic. *)

From Stdlib Require Import ZArith String Ascii.
From stdpp Require Import base option list gmap strings.

Local Open Scope string_scope.
Local Open Scope list_scope.
Local Open Scope Z_scope.

(** ** Python strings: [str.lower], [str.capitalize], truthiness *)

Module PyStr.

Definition lower_ascii (c : ascii) : ascii :=
  let n := N_of_ascii c in
  if ((65 <=? n) && (n <=? 90))%N then ascii_of_N (n + 32) else c.

Definition upper_ascii (c : ascii) : ascii :=
  let n := N_of_ascii c in
  if ((97 <=? n) && (n <=? 122))%N then ascii_of_N (n - 32) else c.

Fixpoint lower (s : string) : string :=
  match s with
  | EmptyString => EmptyString
  | String c r => String (lower_ascii c) (lower r)
  end.

(** [s.capitalize()]: first character upper-cased, the rest lower-cased. *)
Definition capitalize (s : string) : string :=
  match s with
  | EmptyString => EmptyString
  | String c r => String (upper_ascii c) (lower r)
  end.

(** [bool(s)] for a string: the empty string is false. *)
Definition truthy (s : string) : bool :=
  match s with EmptyString => false | String _ _ => true end.

End PyStr.

(** ** Data *)

(** A JSON scalar as the oracle may put it under a key of its answer.  The
    prompt asks for the strings "on" and "off"; nothing checks that. *)
Inductive value : Type :=
  | VNull
  | VBool (b : bool)
  | VInt (n : Z)
  | VStr (s : string).

#[global] Instance value_eq_dec : EqDecision value.
Proof. solve_decision. Defined.

(** Python's [v == "lit"] for a JSON scalar [v] and a string literal. *)
Definition eq_str (v : value) (lit : string) : bool :=
  match v with
  | VStr s => bool_decide (s = lit)
  | _ => false
  end.

(** [last_decision.get(k) != "lit"]: a missing key yields [None], which differs
    from every string. *)
Definition get_ne_str (m : gmap string value) (k lit : string) : bool :=
  match m !! k with
  | Some v => negb (eq_str v lit)
  | None => true
  end.

(** The second component of a lock: [float("inf")] or a finite clock reading
    (seconds, as [time.time()] counts them). *)
Inductive expiry : Type :=
  | Never
  | At (t : Z).

#[global] Instance expiry_eq_dec : EqDecision expiry.
Proof. solve_decision. Defined.

(** [now < expiry] and [now >= expiry]. *)
Definition lt_expiry (now : Z) (e : expiry) : bool :=
  match e with Never => true | At t => now <? t end.

Definition ge_expiry (now : Z) (e : expiry) : bool :=
  match e with Never => false | At t => t <=? now end.

(** Daemon threads started by the handlers.  A pump thread is either about to
    run its first statement ([in_driver = false]) or blocked inside
    [blink_led] ([in_driver = true]); a release thread is asleep. *)
Inductive task : Type :=
  | T_run_pump (duration : Z) (in_driver : bool)
  | T_run (seconds : Z) (in_driver : bool)
  | T_auto_release (dev desired : string) (minutes : Z).

#[global] Instance task_eq_dec : EqDecision task.
Proof. solve_decision. Defined.

(** What the relay answers to one HTTP request, as [tasmota.cmd] returns it. *)
Inductive reply : Type :=
  | ReplyError (msg : string)
  | ReplyJson (body : string)
  | ReplyRaw (text : string).

(** The process environment: the two relay addresses of [tasmota.IP] and the
    relays' behaviour on the wire. *)
Record environ : Type := Environ {
  FAN_IP : option string;
  LIGHT_IP : option string;
  relay : string → string → reply
}.

Definition IP (env : environ) : gmap string (option string) :=
  <["fan" := FAN_IP env]> (<["light" := LIGHT_IP env]> ∅).

(** The shared state of [shared_state.py], the thread table, and the relay
    commands sent so far (device, power command), oldest first. *)
Record world : Type := World {
  last_decision : gmap string value;
  manual_lock : gmap string (string * expiry);
  threads : list task;
  sent : list (string * string)
}.

Definition initial_world : world :=
  {| last_decision :=
       <["fan" := VStr "off"]> (<["light" := VStr "off"]> (<["pump" := VStr "off"]> ∅));
     manual_lock := ∅;
     threads := [];
     sent := [] |}.

Definition set_last_decision (f : gmap string value → gmap string value) (w : world) : world :=
  {| last_decision := f (last_decision w); manual_lock := manual_lock w;
     threads := threads w; sent := sent w |}.

Definition set_manual_lock
    (f : gmap string (string * expiry) → gmap string (string * expiry)) (w : world) : world :=
  {| last_decision := last_decision w; manual_lock := f (manual_lock w);
     threads := threads w; sent := sent w |}.

Definition set_threads (f : list task → list task) (w : world) : world :=
  {| last_decision := last_decision w; manual_lock := manual_lock w;
     threads := f (threads w); sent := sent w |}.

Definition set_sent (f : list (string * string) → list (string * string)) (w : world) : world :=
  {| last_decision := last_decision w; manual_lock := manual_lock w;
     threads := threads w; sent := f (sent w) |}.

(** ** State and exceptions *)

Inductive exn : Type :=
  | ValueError
  | KeyError
  | DriverError.

Inductive outcome (A : Type) : Type :=
  | Returns (a : A)
  | Raises (e : exn).
Arguments Returns {A} a.
Arguments Raises {A} e.

Definition M (A : Type) : Type := world → outcome A * world.

Definition ret {A} (a : A) : M A := fun w => (Returns a, w).
Definition raise {A} (e : exn) : M A := fun w => (Raises e, w).
Definition bind {A B} (m : M A) (k : A → M B) : M B :=
  fun w => match m w with
           | (Returns a, w') => k a w'
           | (Raises e, w') => (Raises e, w')
           end.
Definition gets {A} (f : world → A) : M A := fun w => (Returns (f w), w).
Definition modify (f : world → world) : M unit := fun w => (Returns tt, f w).

Declare Scope py_scope.
Delimit Scope py_scope with py.
Notation "x <- m ;; k" := (bind m (fun x => k))
  (at level 100, m at next level, right associativity) : py_scope.
Notation "m ;;; k" := (bind m (fun _ => k))
  (at level 100, right associativity) : py_scope.
Local Open Scope py_scope.

(** [d[k]]: raises [KeyError] on a missing key. *)
Definition getitem {V} (d : gmap string V) (k : string) : M V :=
  match d !! k with
  | Some v => ret v
  | None => raise KeyError
  end.

(** [threading.Thread(target=..., daemon=True).start()]. *)
Definition spawn (t : task) : M unit := modify (set_threads (fun ts => ts ++ [t])).

(** ** tasmota.py *)

(** [dev in IP and IP[dev]]: the device has a non-empty address. *)
Definition has_ip (env : environ) (dev : string) : bool :=
  match IP env !! dev with
  | Some (Some ip) => PyStr.truthy ip
  | _ => false
  end.

(** [cmd(dev, power_cmd)]: [ValueError] when the device has no address, else
    one HTTP GET whose answer comes back as a dict. *)
Definition tas_cmd (env : environ) (dev power_cmd : string) : M reply :=
  if negb (has_ip env dev)
  then raise ValueError
  else modify (set_sent (fun l => l ++ [(dev, power_cmd)])) ;;;
       ret (relay env dev power_cmd).

(** ** llm.py *)

Definition PUMP_DURATION : Z := 2.

(** [manual_lock.get(dev, (None, 0))]. *)
Definition lock_get (m : gmap string (string * expiry)) (dev : string)
    : option string * expiry :=
  match m !! dev with
  | Some (s, e) => (Some s, e)
  | None => (None, At 0)
  end.

(** [all(k in decision for k in ("fan", "light", "pump"))]. *)
Definition has_all_keys (decision : gmap string value) : bool :=
  forallb (fun k => bool_decide (is_Some (decision !! k))) ["fan"; "light"; "pump"].

(** ["On" if decision[dev] == "on" else "Off"]. *)
Definition power_of (v : value) : string :=
  if eq_str v "on" then "On" else "Off".

(** The rest of an iteration once the lock test has failed: the relay
    command, then the removal of a lock that has run out. *)
Definition drive_relay (env : environ) (decision : gmap string value) (now : Z)
    (dev : string) (expiry : expiry) : M unit :=
  v <- getitem decision dev ;;
  tas_cmd env dev (power_of v) ;;;
  present <- gets (fun w => bool_decide (is_Some (manual_lock w !! dev))) ;;
  if present && ge_expiry now expiry
  then modify (set_manual_lock (delete dev))
  else ret tt.

(** One iteration of [for dev in ("fan", "light")]; the result is
    [final_decision] after the iteration. *)
Definition fan_light_body (env : environ) (decision : gmap string value) (now : Z)
    (dev : string) (final_decision : gmap string value) : M (gmap string value) :=
  lk <- gets (fun w => lock_get (manual_lock w) dev) ;;
  match lk with
  | (Some locked_state, expiry) =>
      if PyStr.truthy locked_state && lt_expiry now expiry
      then ret (<[dev := VStr locked_state]> final_decision)
      else drive_relay env decision now dev expiry ;;; ret final_decision
  | (None, expiry) =>
      drive_relay env decision now dev expiry ;;; ret final_decision
  end.

Fixpoint fan_light_loop (env : environ) (decision : gmap string value) (now : Z)
    (devs : list string) (final_decision : gmap string value) : M (gmap string value) :=
  match devs with
  | [] => ret final_decision
  | dev :: rest =>
      fd <- fan_light_body env decision now dev final_decision ;;
      fan_light_loop env decision now rest fd
  end.

(** The pump branch of [decide_actuators]. *)
Definition pump_branch (decision final_decision : gmap string value)
    : M (gmap string value) :=
  p <- getitem decision "pump" ;;
  idle <- gets (fun w => get_ne_str (last_decision w) "pump" "on") ;;
  if eq_str p "on" && idle
  then spawn (T_run_pump PUMP_DURATION false) ;;;
       ret (<["pump" := VStr "on"]> final_decision)
  else if eq_str p "off"
       then ret (<["pump" := VStr "off"]> final_decision)
       else ret final_decision.

(** [decide_actuators] from the point where the oracle has answered:
    [content] is [json.loads(response.content)], [None] when it raises
    [JSONDecodeError].  The oracle is called with [response_format =
    json_object], so a content that parses is an object.  [now] is
    [time.time()]. *)
Definition decide_actuators (env : environ) (content : option (gmap string value))
    (now : Z) : M (gmap string value) :=
  match content with
  | None => gets last_decision
  | Some decision =>
      if negb (has_all_keys decision)
      then gets last_decision
      else
        fd <- fan_light_loop env decision now ["fan"; "light"] decision ;;
        fd <- pump_branch decision fd ;;
        modify (set_last_decision (fun m => fd ∪ m)) ;;;
        ret fd
  end.

(** The physical pump driver [pump.blink_led], as the environment lets one
    call of it end. *)
Inductive driver : Type :=
  | DriverOk
  | DriverFails.

Definition blink_led (drv : driver) : M unit :=
  match drv with
  | DriverOk => ret tt
  | DriverFails => raise DriverError
  end.

(** [try: body except Exception: handler] and [try: body finally: cleanup]. *)
Definition try_except {A} (body : M A) (handler : exn → M A) : M A :=
  fun w => match body w with
           | (Returns a, w') => (Returns a, w')
           | (Raises e, w') => handler e w'
           end.

Definition try_finally {A} (body : M A) (cleanup : M unit) : M A :=
  fun w => match body w with
           | (r, w') =>
               match cleanup w' with
               | (Returns _, w'') => (r, w'')
               | (Raises e, w'') => (Raises e, w'')
               end
           end.

(** [_run_pump], cut at the blocking call: the statement before [blink_led],
    then what follows once the driver call has ended with [drv]. *)
Definition _run_pump_enter : M unit :=
  modify (set_last_decision (<["pump" := VStr "on"]>)).

Definition _run_pump_leave (drv : driver) : M unit :=
  blink_led drv ;;;
  modify (set_last_decision (<["pump" := VStr "off"]>)).

(** ** main.py *)

(** [_auto_release] after its [time.sleep]. *)
Definition _auto_release (env : environ) (dev desired : string) : M unit :=
  tas_cmd env dev (PyStr.capitalize desired) ;;;
  modify (set_manual_lock (delete dev)) ;;;
  modify (set_last_decision (<[dev := VStr desired]>)).

(** What [toggle_device] hands back: the error dict, or the relay's answer. *)
Inductive toggle_response : Type :=
  | ActionError (msg : string)
  | Relayed (r : reply).

(** [bool(payload)] for [payload : dict | None]. *)
Definition truthy_payload (payload : option (gmap string Z)) : bool :=
  match payload with
  | Some p => negb (bool_decide (p = ∅))
  | None => false
  end.

(** [int(payload.get(key, dflt)) if payload else other].  The values of the
    request body are JSON integers, on which [int] is the identity. *)
Definition payload_int (payload : option (gmap string Z)) (key : string)
    (dflt other : Z) : Z :=
  match payload with
  | Some p => if truthy_payload payload then default dflt (p !! key) else other
  | None => other
  end.

Definition toggle_device (env : environ) (dev action : string)
    (payload : option (gmap string Z)) (now : Z) : M toggle_response :=
  let action := PyStr.lower action in
  if negb (bool_decide (action ∈ ["on"; "off"; "toggle"]))
  then ret (ActionError "action must be on/off/toggle")
  else
    let power_cmd := PyStr.capitalize action in
    let duration := payload_int payload "duration" 0 0 in
    result <- tas_cmd env dev power_cmd ;;
    (if bool_decide (dev ∈ ["fan"; "light"])
     then
       let state := if bool_decide (power_cmd = "On") then "on" else "off" in
       modify (set_last_decision (<[dev := VStr state]>)) ;;;
       let expiry := if duration =? 0 then Never else At (now + duration * 60) in
       modify (set_manual_lock (<[dev := (state, expiry)]>)) ;;;
       if 0 <? duration
       then spawn (T_auto_release dev
                     (if bool_decide (state = "on") then "off" else "on") duration)
       else ret tt
     else ret tt) ;;;
    ret (Relayed result).

(** The dict [{"status": ..., "duration": ...}] that [water_pump] returns. *)
Record pump_response : Type := PumpResponse {
  status : string;
  duration : Z
}.

(** The thread body [_run] inside [water_pump], cut like [_run_pump]. *)
Definition _run_enter : M unit :=
  modify (set_last_decision (<["pump" := VStr "on"]>)).

Definition _run_leave (drv : driver) : M unit :=
  try_finally
    (try_except (blink_led drv) (fun _ => ret tt))
    (modify (set_last_decision (<["pump" := VStr "off"]>))).

Definition water_pump (payload : option (gmap string Z)) : M pump_response :=
  let seconds := payload_int payload "duration" 5 2 in
  spawn (T_run seconds false) ;;;
  ret {| status := "watering"; duration := seconds |}.

(** ** Scheduling *)

(** The scheduler lets thread [i] run up to its next blocking call, or to its
    end; [drv] is how the driver call ends, for a thread that is inside it.  An
    exception that leaves a thread body ends that thread and nothing else. *)
Definition thread_step (env : environ) (i : nat) (drv : driver) (w : world) : world :=
  match threads w !! i with
  | None => w
  | Some (T_run_pump d false) =>
      set_threads (<[i := T_run_pump d true]>) (_run_pump_enter w).2
  | Some (T_run_pump d true) =>
      set_threads (delete i) (_run_pump_leave drv w).2
  | Some (T_run s false) =>
      set_threads (<[i := T_run s true]>) (_run_enter w).2
  | Some (T_run s true) =>
      set_threads (delete i) (_run_leave drv w).2
  | Some (T_auto_release dev desired _) =>
      set_threads (delete i) (_auto_release env dev desired w).2
  end.

(** What can happen to the process, one event at a time: a tick of the
    control loop once the oracle has answered, a call of [toggle_device], a
    call of [water_pump], a thread picked by the scheduler.  How an HTTP
    request finds its handler is not part of the model. *)
Inductive event : Type :=
  | Tick (content : option (gmap string value)) (now : Z)
  | Toggle (dev action : string) (payload : option (gmap string Z)) (now : Z)
  | Pump (payload : option (gmap string Z))
  | Sched (i : nat) (drv : driver).

Definition step (env : environ) (w : world) (e : event) : world :=
  match e with
  | Tick content now => (decide_actuators env content now w).2
  | Toggle dev action payload now => (toggle_device env dev action payload now w).2
  | Pump payload => (water_pump payload w).2
  | Sched i drv => thread_step env i drv w
  end.

Definition run (env : environ) (es : list event) (w : world) : world :=
  foldl (step env) w es.

(** The pump runs in flight: pump threads that have been started and have
    not ended. *)
Definition is_pump_run (t : task) : bool :=
  match t with
  | T_run_pump _ _ | T_run _ _ => true
  | T_auto_release _ _ _ => false
  end.

Definition pump_runs (w : world) : list task := filter (fun t => is_pump_run t = true) (threads w).

(** ** Readers of the model *)

(** The lock test of the loop, [locked_state and now < expiry], as a
    predicate on the state. *)
Definition override_active (w : world) (dev : string) (now : Z) : bool :=
  match manual_lock w !! dev with
  | Some (ls, e) => PyStr.truthy ls && lt_expiry now e
  | None => false
  end.

(** The lock of [dev] is dropped when it has run out. *)
Definition drop_expired (now : Z) (dev : string) (w : world) : world :=
  match manual_lock w !! dev with
  | Some (_, e) => if ge_expiry now e then set_manual_lock (delete dev) w else w
  | None => w
  end.

(** The commands of [cmds] that went to [dev]. *)
Definition commands_to (dev : string) (cmds : list (string * string)) : list string :=
  (filter (fun c => c.1 = dev) cmds).*2.

(** The states the process can be in: from the initial dictionaries, any
    number of events. *)
Inductive reachable (env : environ) : world → Prop :=
  | reachable_init : reachable env initial_world
  | reachable_step w e : reachable env w → reachable env (step env w e).

(** Every lock holds the string "on" or the string "off". *)
Definition locks_on_off (w : world) : Prop :=
  ∀ k ls e, manual_lock w !! k = Some (ls, e) → ls = "on" ∨ ls = "off".

(** ** Concrete inputs *)

(** A deployment with both relays configured; every relay answers alike. *)
Definition env0 : environ :=
  {| FAN_IP := Some "192.168.1.50"; LIGHT_IP := Some "192.168.1.51";
     relay := fun _ _ => ReplyJson "{}" |}.

(** The oracle's answer with the given three values. *)
Definition answer (fan light pump : string) : gmap string value :=
  <["fan" := VStr fan]> (<["light" := VStr light]> (<["pump" := VStr pump]> ∅)).

(** A request body [{"duration": n}]. *)
Definition for_duration (n : Z) : option (gmap string Z) :=
  Some (<["duration" := n]> ∅).

(** * The rest of the backend *)

(** ** llm.py: the control loop *)

(** The first iterations of the [while True] of [run_control_loop]: each
    pair is what one iteration gets from outside, the oracle's parsed answer
    and the clock.  Reading the sensors, logging and sleeping leave the shared
    state alone.  Nothing catches an exception of [decide_actuators], so the
    first tick that raises ends the loop. *)
Fixpoint run_control_loop (env : environ)
    (ticks : list (option (gmap string value) * Z)) : M unit :=
  match ticks with
  | [] => ret tt
  | (content, now) :: rest =>
      decide_actuators env content now ;;;
      run_control_loop env rest
  end.

(** ** main.py: the actuator stream *)

(** The calls of [send_json] that the loop of [ws_actuators] makes over its
    first polls: [polls] are the copies of [last_decision] that the loop
    takes, one every 0.2 s; the result is the states handed to [send_json],
    oldest first.  [last_sent] starts as [None], which differs from every
    dict.  Whether a call delivers its state is the matter of [ws_stream]. *)
Fixpoint ws_actuators (polls : list (gmap string value))
    (last_sent : option (gmap string value)) : list (gmap string value) :=
  match polls with
  | [] => []
  | state :: rest =>
      if bool_decide (Some state ≠ last_sent)
      then state :: ws_actuators rest (Some state)
      else ws_actuators rest last_sent
  end.


(** ** tasmota.py: the request *)

(** The URL that [cmd] requests from a relay at address [ip]. *)
Definition cmd_url (ip power_cmd : string) : string :=
  let sep := if PyStr.truthy power_cmd then "%20" else "" in
  String.append "http://"
    (String.append ip
       (String.append "/cm?cmnd=Power" (String.append sep power_cmd))).

(** ** data.py: the converter *)

(** The three values [_read_channel] puts on the bus for a channel. *)
Definition spi_request (channel : Z) : list Z :=
  [1; Z.shiftl (8 + channel) 4; 0].

(** [_read_channel]: [xfer2] is the bus, which answers a request with a
    list of bytes; [None] is the [IndexError] of an answer shorter than three
    bytes. *)
Definition _read_channel (xfer2 : list Z → list Z) (channel : Z) : option Z :=
  let adc := xfer2 (spi_request channel) in
  match adc !! 1%nat with
  | None => None
  | Some b1 =>
      match adc !! 2%nat with
      | None => None
      | Some b2 => Some (Z.shiftl (Z.land b1 3) 8 + b2)
      end
  end.

(** An answer of the bus is made of bytes. *)
Definition bytes_only (xfer2 : list Z → list Z) : Prop :=
  ∀ req b, b ∈ xfer2 req → 0 <= b <= 255.

(** ** chat.py: the conversation *)

Module Chat.

(** The messages handed to the language model. *)
Inductive lc_message : Type :=
  | SystemMessage (content : string)
  | HumanMessage (content : string)
  | AIMessage (content : string).

Record ChatReq : Type := {
  message : string;
  history : option (list (gmap string string))
}.

Record ChatResp : Type := {
  reply : string;
  new_history : list (gmap string string)
}.

(** What the endpoint answers: the response model, or an [HTTPException]
    with its status code. *)
Inductive http (A : Type) : Type :=
  | Ok200 (a : A)
  | HTTPError (status_code : Z).
Arguments Ok200 {A} a.
Arguments HTTPError {A} status_code.

(** [l[-n:]] for a positive [n]. *)
Definition slice_last {A} (n : nat) (l : list A) : list A :=
  drop (length l - n) l.

(** [{"role": role, "content": content}]. *)
Definition entry (role content : string) : gmap string string :=
  <["role" := role]> (<["content" := content]> ∅).

(** One element of the comprehension that builds [lc_history]; [None] is
    the [KeyError] of an entry without role or without content. *)
Definition lc_of (m : gmap string string) : option lc_message :=
  match m !! "role" with
  | None => None
  | Some role =>
      match m !! "content" with
      | None => None
      | Some content =>
          Some (if bool_decide (role = "user")
                then HumanMessage content else AIMessage content)
      end
  end.

(** What [chat] passes to [llm.ainvoke]; [None] when building it raises. *)
Definition lc_messages (system_msg : lc_message) (req : ChatReq)
    : option (list lc_message) :=
  match mapM lc_of (slice_last 20 (default [] (history req))) with
  | None => None
  | Some lc_history => Some (system_msg :: lc_history ++ [HumanMessage (message req)])
  end.

(** [chat].  [system_msg] is the system message that the sensor readings
    and the detections give, [None] when reading them raises; [ainvoke] is the
    model, giving [ai_msg.content.strip()], or [None] when the call raises.
    The [except Exception] turns every exception into status 500. *)
Definition chat (system_msg : option lc_message)
    (ainvoke : list lc_message → option string) (req : ChatReq) : http ChatResp :=
  match system_msg with
  | None => HTTPError 500
  | Some sys =>
      let history := slice_last 20 (default [] (history req)) in
      match lc_messages sys req with
      | None => HTTPError 500
      | Some msgs =>
          match ainvoke msgs with
          | None => HTTPError 500
          | Some assistant_reply =>
              Ok200 {| reply := assistant_reply;
                       new_history :=
                         history ++ [entry "user" (message req);
                                     entry "assistant" assistant_reply] |}
          end
      end
  end.

End Chat.

(** ** yolo_integration.py: the capture endpoint *)

Module Yolo.

Inductive dir : Type :=
  | current_dir
  | yolo_dir.

(** What the endpoint shares with the rest of the process: the jobs of the
    [schedule] module (their periods, in minutes) and the working directory. *)
Record state : Type := {
  jobs : list Z;
  cwd : dir
}.

(** What one call meets: the period exported by the pipeline module,
    whether [os.chdir] into a directory succeeds, whether the import and
    [run_pipeline()] return, whether the annotated image exists afterwards. *)
Record surroundings : Type := {
  CHECK_INTERVAL : Z;
  chdir_ok : dir → bool;
  pipeline_ok : bool;
  image_exists : bool
}.

Inductive exc : Type :=
  | HTTPException (status_code : Z)
  | OtherException.

(** The [try] block of [capture_image]. *)
Definition capture_body (e : surroundings) (s : state) : option exc * state :=
  let s := {| jobs := []; cwd := cwd s |} in
  if negb (chdir_ok e yolo_dir) then (Some OtherException, s)
  else
    let s := {| jobs := jobs s; cwd := yolo_dir |} in
    if negb (pipeline_ok e) then (Some OtherException, s)
    else
      if negb (chdir_ok e current_dir) then (Some OtherException, s)
      else
        let s := {| jobs := jobs s; cwd := current_dir |} in
        let s := {| jobs := jobs s ++ [CHECK_INTERVAL e]; cwd := cwd s |} in
        if image_exists e then (None, s)
        else (Some (HTTPException 404), s).

(** [capture_image]: the success dict ([None]) or the status of the
    [HTTPException] that leaves the function; [except Exception] catches
    whatever the [try] block raises and raises status 500. *)
Definition capture_image (e : surroundings) (s : state) : option Z * state :=
  match capture_body e s with
  | (None, s') => (None, s')
  | (Some _, s') => (Some 500, s')
  end.

End Yolo.

(** ** Shapes of the shared state *)

(** The three commands a relay is ever sent. *)
Definition power_commands : list string := ["On"; "Off"; "Toggle"].

(** Every command sent went to a configured relay and is one of the three. *)
Definition sent_ok (env : environ) (w : world) : Prop :=
  ∀ dev c, (dev, c) ∈ sent w → has_ip env dev = true ∧ c ∈ power_commands.

(** Every release thread carries on or off as the state to fall back to. *)
Definition releases_ok (w : world) : Prop :=
  ∀ dev desired m, T_auto_release dev desired m ∈ threads w →
    desired = "on" ∨ desired = "off".

(** * Properties *)

(** ** The string helpers and the scenarios of the design on concrete inputs *)

Example lower_TOGGLE : PyStr.lower "TOGGLE" = "toggle".
Proof. reflexivity. Qed.

Example capitalize_toggle : PyStr.capitalize "toggle" = "Toggle".
Proof. reflexivity. Qed.

Example capitalize_oN : PyStr.capitalize (PyStr.lower "oN") = "On".
Proof. reflexivity. Qed.

(** Dry soil at ten in the morning: the pump run starts, the light goes on,
    and both relays are commanded although the fan was off already. *)
Example dry_soil_morning :
  let w := step env0 initial_world (Tick (Some (answer "off" "on" "on")) 36000) in
  threads w = [T_run_pump 2 false] ∧
  sent w = [("fan", "Off"); ("light", "On")] ∧
  last_decision w = answer "off" "on" "on".
Proof. vm_compute. by repeat split. Qed.

(** The fan is locked on for five minutes; a tick two minutes later that
    proposes off leaves it on; the release then sends Off, stores off and
    clears the lock. *)
Example timed_lock_then_release :
  let w1 := run env0 [Toggle "fan" "on" (for_duration 5) 0;
                      Tick (Some (answer "off" "off" "off")) 120] initial_world in
  let w2 := step env0 w1 (Sched 0 DriverOk) in
  last_decision w1 !! "fan" = Some (VStr "on") ∧
  commands_to "fan" (sent w1) = ["On"] ∧
  commands_to "fan" (sent w2) = ["On"; "Off"] ∧
  last_decision w2 !! "fan" = Some (VStr "off") ∧
  manual_lock w2 !! "fan" = None.
Proof. vm_compute. by repeat split. Qed.


Section body.
Context (env : environ) (d : gmap string value) (now : Z).

Lemma ge_lt_expiry e : ge_expiry now e = negb (lt_expiry now e).
Proof. destruct e as [|t]; simpl; [done|]. destruct (Z.ltb_spec now t), (Z.leb_spec t now); lia || done. Qed.

Lemma tas_cmd_ok dev c w :
  has_ip env dev = true →
  tas_cmd env dev c w = (Returns (relay env dev c), set_sent (fun l => l ++ [(dev, c)]) w).
Proof. intros H. unfold tas_cmd. by rewrite H. Qed.

Lemma tas_cmd_fail dev c w :
  has_ip env dev = false → tas_cmd env dev c w = (Raises ValueError, w).
Proof. intros H. unfold tas_cmd. by rewrite H. Qed.

(** An active lock: the iteration writes the locked state and nothing else. *)
Lemma body_locked dev fd w ls e :
  manual_lock w !! dev = Some (ls, e) →
  PyStr.truthy ls = true → lt_expiry now e = true →
  fan_light_body env d now dev fd w = (Returns (<[dev := VStr ls]> fd), w).
Proof.
  intros Hl Ht He. unfold fan_light_body, bind, gets, lock_get.
  by rewrite Hl, Ht, He.
Qed.

(** No active lock: one command, then the cleanup of a lock that ran out. *)
Lemma body_unlocked dev fd w v :
  override_active w dev now = false → d !! dev = Some v →
  has_ip env dev = true →
  fan_light_body env d now dev fd w =
    (Returns fd, drop_expired now dev (set_sent (fun l => l ++ [(dev, power_of v)]) w)).
Proof.
  intros Ha Hv Hip. unfold override_active in Ha.
  unfold fan_light_body, drive_relay, bind, gets, lock_get, getitem, drop_expired.
  destruct (manual_lock w !! dev) as [[ls e]|] eqn:Hl; simpl.
  - rewrite Ha, Hv. simpl. rewrite tas_cmd_ok by done. simpl. rewrite Hl.
    rewrite bool_decide_eq_true_2 by eauto. simpl.
    by destruct (ge_expiry now e).
  - rewrite Hv. simpl. rewrite tas_cmd_ok by done. simpl. rewrite Hl.
    by rewrite bool_decide_eq_false_2 by (by intros [? ?]).
Qed.

(** Whatever an iteration does, it does to its own device only. *)
Lemma body_frame dev fd w :
  let r := fan_light_body env d now dev fd w in
  last_decision r.2 = last_decision w ∧ threads r.2 = threads w ∧
  (∃ cmds, sent r.2 = sent w ++ cmds ∧ ∀ c, c ∈ cmds → c.1 = dev) ∧
  (∀ k, k ≠ dev → manual_lock r.2 !! k = manual_lock w !! k) ∧
  (∀ fd', r.1 = Returns fd' → ∀ k, k ≠ dev → fd' !! k = fd !! k).
Proof.
  assert (Hnil : ∃ cmds : list (string * string),
             sent w = sent w ++ cmds ∧ ∀ c, c ∈ cmds → c.1 = dev).
  { exists []. split; [by rewrite app_nil_r | by intros c Hc; inversion Hc]. }
  assert (Hone : ∀ p, ∃ cmds : list (string * string),
             sent w ++ [(dev, p)] = sent w ++ cmds ∧ ∀ c, c ∈ cmds → c.1 = dev).
  { intros p. exists [(dev, p)]. split; [done|].
    intros c Hc. apply list_elem_of_singleton in Hc. by subst. }
  assert (Hdrive : ∀ e,
    let r := (drive_relay env d now dev e ;;; ret fd) w in
    last_decision r.2 = last_decision w ∧ threads r.2 = threads w ∧
    (∃ cmds, sent r.2 = sent w ++ cmds ∧ ∀ c, c ∈ cmds → c.1 = dev) ∧
    (∀ k, k ≠ dev → manual_lock r.2 !! k = manual_lock w !! k) ∧
    (∀ fd', r.1 = Returns fd' → ∀ k, k ≠ dev → fd' !! k = fd !! k)).
  { intros e. unfold drive_relay, bind, gets, getitem, tas_cmd.
    destruct (d !! dev) as [v|]; simpl; [|by repeat split].
    destruct (has_ip env dev); simpl; [|by repeat split].
    destruct (bool_decide _ && ge_expiry now e); simpl.
    - repeat split; try done.
      + intros k Hk. by rewrite lookup_delete_ne.
      + by intros fd' [= <-].
    - repeat split; try done. by intros fd' [= <-]. }
  unfold fan_light_body, bind, gets, lock_get.
  destruct (manual_lock w !! dev) as [[ls e]|]; simpl; [|apply Hdrive].
  destruct (PyStr.truthy ls && lt_expiry now e); simpl; [|apply Hdrive].
  repeat split; try done.
  intros fd' [= <-] k Hk. by rewrite lookup_insert_ne.
Qed.

End body.

Section loop.
Context (env : environ) (d : gmap string value) (now : Z).

Lemma loop_app pre post fd w :
  fan_light_loop env d now (pre ++ post) fd w =
    (fd1 <- fan_light_loop env d now pre fd ;; fan_light_loop env d now post fd1) w.
Proof.
  revert fd w. induction pre as [|dev pre IH]; intros fd w; simpl; [done|].
  unfold bind in *. destruct (fan_light_body env d now dev fd w) as [[fd1|e] w1]; [|done].
  apply IH.
Qed.

Lemma loop_focus pre dev post fd w :
  fan_light_loop env d now (pre ++ dev :: post) fd w =
    match fan_light_loop env d now pre fd w with
    | (Returns fd1, w1) =>
        match fan_light_body env d now dev fd1 w1 with
        | (Returns fd2, w2) => fan_light_loop env d now post fd2 w2
        | (Raises e, w2) => (Raises e, w2)
        end
    | (Raises e, w1) => (Raises e, w1)
    end.
Proof. by rewrite loop_app. Qed.

(** The loop touches the devices it runs over and nothing else. *)
Lemma loop_frame devs fd w :
  let r := fan_light_loop env d now devs fd w in
  last_decision r.2 = last_decision w ∧ threads r.2 = threads w ∧
  (∃ cmds, sent r.2 = sent w ++ cmds ∧ ∀ c, c ∈ cmds → c.1 ∈ devs) ∧
  (∀ k, k ∉ devs → manual_lock r.2 !! k = manual_lock w !! k) ∧
  (∀ fd', r.1 = Returns fd' → ∀ k, k ∉ devs → fd' !! k = fd !! k).
Proof.
  revert fd w. induction devs as [|dev devs IH]; intros fd w; simpl.
  - repeat split; try done.
    + exists []. split; [by rewrite app_nil_r | by intros c Hc; inversion Hc].
    + by intros fd' [= <-].
  - destruct (body_frame env d now dev fd w) as (Hd & Ht & (c1 & Hs & Hc1) & Hm & Hf).
    unfold bind.
    destruct (fan_light_body env d now dev fd w) as [[fd1|e] w1]; simpl in *.
    + destruct (IH fd1 w1) as (Hd' & Ht' & (c2 & Hs' & Hc2) & Hm' & Hf').
      split; [congruence|]. split; [congruence|]. split; [|split].
      * exists (c1 ++ c2). split; [by rewrite Hs', Hs, app_assoc|].
        intros c [Hc|Hc]%elem_of_app.
        -- rewrite (Hc1 c Hc). by left.
        -- right. by apply Hc2.
      * intros k Hk. apply not_elem_of_cons in Hk as [Hk1 Hk2].
        by rewrite Hm', Hm.
      * intros fd' Hr k Hk. apply not_elem_of_cons in Hk as [Hk1 Hk2].
        by rewrite (Hf' fd' Hr k Hk2), (Hf fd1 eq_refl k Hk1).
    + split; [done|]. split; [done|]. split; [|split; [|done]].
      * exists c1. split; [done|]. intros c Hc. rewrite (Hc1 c Hc). by left.
      * intros k Hk. apply not_elem_of_cons in Hk as [Hk1 Hk2]. by apply Hm.
Qed.

(** With every relay configured and every key present the loop returns. *)
Lemma loop_returns devs fd w :
  (∀ k, k ∈ devs → has_ip env k = true ∧ is_Some (d !! k)) →
  ∃ fd', (fan_light_loop env d now devs fd w).1 = Returns fd'.
Proof.
  revert fd w. induction devs as [|dev devs IH]; intros fd w Hall; simpl; [by eexists|].
  destruct (Hall dev) as [Hip [v Hv]]; [by left|].
  assert (∃ fd1 w1, fan_light_body env d now dev fd w = (Returns fd1, w1)) as (fd1 & w1 & Hb).
  { destruct (override_active w dev now) eqn:Ha.
    - unfold override_active in Ha.
      destruct (manual_lock w !! dev) as [[ls e]|] eqn:Hl; [|done].
      apply andb_true_iff in Ha as [? ?]. erewrite body_locked by done. by eexists _, _.
    - erewrite body_unlocked by done. by eexists _, _. }
  unfold bind. rewrite Hb. apply IH. intros k Hk. apply Hall. by right.
Qed.

Lemma commands_to_app dev (a b : list (string * string)) :
  commands_to dev (a ++ b) = commands_to dev a ++ commands_to dev b.
Proof. unfold commands_to. by rewrite filter_app, fmap_app. Qed.

Lemma commands_to_others dev (devs : list string) (cmds : list (string * string)) :
  dev ∉ devs → (∀ c, c ∈ cmds → c.1 ∈ devs) → commands_to dev cmds = [].
Proof.
  intros Hn Hall. unfold commands_to.
  induction cmds as [|c cmds IH]; [done|].
  rewrite filter_cons. destruct (decide (c.1 = dev)) as [Heq|Hne].
  - exfalso. apply Hn. rewrite <- Heq. apply Hall. by left.
  - apply IH. intros c' Hc'. apply Hall. by right.
Qed.

(** The loop, seen from a device under an active lock. *)
Lemma loop_locked devs dev fd w ls e :
  NoDup devs → dev ∈ devs →
  manual_lock w !! dev = Some (ls, e) →
  PyStr.truthy ls = true → lt_expiry now e = true →
  let r := fan_light_loop env d now devs fd w in
  (∃ cmds, sent r.2 = sent w ++ cmds ∧ commands_to dev cmds = []) ∧
  manual_lock r.2 !! dev = Some (ls, e) ∧
  (∀ fd', r.1 = Returns fd' → fd' !! dev = Some (VStr ls)).
Proof.
  intros Hnd Hin Hl Ht He.
  apply list_elem_of_split in Hin as (pre & post & ->).
  apply NoDup_app in Hnd as (_ & Hpre & Hpost).
  assert (dev ∉ pre) as Hnpre by (intros Hx; apply (Hpre dev Hx); by left).
  apply NoDup_cons in Hpost as [Hnpost _].
  cbv zeta. rewrite loop_focus.
  destruct (loop_frame pre fd w) as (_ & _ & (c1 & Hs1 & Hc1) & Hm1 & _).
  destruct (fan_light_loop env d now pre fd w) as [[fd1|x] w1]; simpl in *.
  - rewrite <- (Hm1 dev Hnpre) in Hl. rewrite (body_locked _ _ _ _ _ _ ls e) by done.
    destruct (loop_frame post (<[dev:=VStr ls]> fd1) w1) as (_ & _ & (c3 & Hs3 & Hc3) & Hm3 & Hf3).
    destruct (fan_light_loop env d now post (<[dev:=VStr ls]> fd1) w1) as [r3 w3]; simpl in *.
    split; [|split].
    + exists (c1 ++ c3). split; [by rewrite Hs3, Hs1, app_assoc|].
      rewrite commands_to_app.
      by rewrite (commands_to_others dev pre c1), (commands_to_others dev post c3).
    + by rewrite (Hm3 dev Hnpost).
    + intros fd' ->. rewrite (Hf3 fd' eq_refl dev Hnpost). apply lookup_insert_eq.
  - split; [|split; [|done]].
    + exists c1. split; [done|]. by apply (commands_to_others dev pre).
    + by rewrite (Hm1 dev Hnpre).
Qed.

(** The loop, seen from a device that no lock protects at this tick. *)
Lemma loop_unlocked devs dev fd w v fd' :
  NoDup devs → dev ∈ devs →
  override_active w dev now = false → d !! dev = Some v →
  let r := fan_light_loop env d now devs fd w in
  r.1 = Returns fd' →
  fd' !! dev = fd !! dev ∧
  (∃ cmds, sent r.2 = sent w ++ cmds ∧ commands_to dev cmds = [power_of v]) ∧
  manual_lock r.2 !! dev = manual_lock (drop_expired now dev w) !! dev.
Proof.
  intros Hnd Hin Ha Hv.
  apply list_elem_of_split in Hin as (pre & post & ->).
  apply NoDup_app in Hnd as (_ & Hpre & Hpost).
  assert (dev ∉ pre) as Hnpre by (intros Hx; apply (Hpre dev Hx); by left).
  apply NoDup_cons in Hpost as [Hnpost _].
  cbv zeta. rewrite loop_focus.
  destruct (loop_frame pre fd w) as (_ & _ & (c1 & Hs1 & Hc1) & Hm1 & Hf1).
  destruct (fan_light_loop env d now pre fd w) as [[fd1|x] w1]; simpl in *; [|done].
  assert (override_active w1 dev now = false) as Ha1.
  { unfold override_active in *. by rewrite (Hm1 dev Hnpre). }
  destruct (has_ip env dev) eqn:Hip.
  - rewrite (body_unlocked _ _ _ _ _ _ v) by done.
    set (w2 := drop_expired now dev _).
    destruct (loop_frame post fd1 w2) as (_ & _ & (c3 & Hs3 & Hc3) & Hm3 & Hf3).
    destruct (fan_light_loop env d now post fd1 w2) as [r3 w3]; simpl in *.
    intros ->. split; [|split].
    + by rewrite (Hf3 fd' eq_refl dev Hnpost), (Hf1 fd1 eq_refl dev Hnpre).
    + exists (c1 ++ [(dev, power_of v)] ++ c3). split.
      * rewrite Hs3. subst w2. unfold drop_expired.
        destruct (manual_lock _ !! dev) as [[? e']|]; [destruct (ge_expiry now e')|];
          simpl; rewrite Hs1; by rewrite <- !app_assoc.
      * rewrite !commands_to_app.
        rewrite (commands_to_others dev pre c1), (commands_to_others dev post c3) by done.
        unfold commands_to. rewrite filter_cons. simpl.
        by rewrite decide_True.
    + rewrite (Hm3 dev Hnpost). subst w2. unfold drop_expired. simpl.
      rewrite (Hm1 dev Hnpre).
      destruct (manual_lock w !! dev) as [[? e']|] eqn:Hl; [|by simpl; rewrite Hm1].
      destruct (ge_expiry now e'); simpl; [by rewrite !lookup_delete_eq|by rewrite Hm1].
  - unfold fan_light_body, drive_relay, bind, gets, lock_get, getitem.
    unfold override_active in Ha1.
    destruct (manual_lock w1 !! dev) as [[ls e]|]; simpl.
    + rewrite Ha1, Hv. simpl. by rewrite tas_cmd_fail.
    + rewrite Hv. simpl. by rewrite tas_cmd_fail.
Qed.

End loop.

(** ** One tick *)

Section tick.
Context (env : environ) (now : Z).

Lemma has_all_keys_lookup d k :
  has_all_keys d = true → k ∈ ["fan"; "light"; "pump"] → is_Some (d !! k).
Proof.
  unfold has_all_keys. rewrite forallb_forall. intros H Hk.
  apply list_elem_of_In in Hk. apply H in Hk. by apply bool_decide_eq_true in Hk.
Qed.

Lemma pump_branch_spec d fd w p :
  d !! "pump" = Some p →
  pump_branch d fd w =
    if eq_str p "on" && get_ne_str (last_decision w) "pump" "on"
    then (Returns (<["pump" := VStr "on"]> fd),
          set_threads (fun ts => ts ++ [T_run_pump PUMP_DURATION false]) w)
    else if eq_str p "off"
         then (Returns (<["pump" := VStr "off"]> fd), w)
         else (Returns fd, w).
Proof.
  intros Hp. unfold pump_branch, bind, getitem, gets. rewrite Hp. simpl.
  destruct (eq_str p "on" && _); [done|]. by destruct (eq_str p "off").
Qed.

Lemma tick_unfold d w :
  has_all_keys d = true →
  decide_actuators env (Some d) now w =
    match fan_light_loop env d now ["fan"; "light"] d w with
    | (Returns fd1, w1) =>
        match pump_branch d fd1 w1 with
        | (Returns fd2, w2) => (Returns fd2, set_last_decision (fun m => fd2 ∪ m) w2)
        | (Raises e, w2) => (Raises e, w2)
        end
    | (Raises e, w1) => (Raises e, w1)
    end.
Proof.
  intros Hk. unfold decide_actuators. rewrite Hk. cbn [negb]. unfold bind at 1.
  destruct (fan_light_loop env d now ["fan"; "light"] d w) as [[fd1|e] w1]; [|done].
  unfold bind at 1. by destruct (pump_branch d fd1 w1) as [[fd2|e] w2].
Qed.

Lemma fan_light_NoDup : NoDup ["fan"; "light"].
Proof. by apply (bool_decide_unpack _). Qed.

Lemma fan_light_not_pump dev : dev ∈ ["fan"; "light"] → dev ≠ "pump".
Proof.
  intros H ->. apply elem_of_cons in H as [H|H]; [discriminate|].
  apply elem_of_cons in H as [H|H]; [discriminate|]. inversion H.
Qed.

Lemma fan_light_keys d k :
  has_all_keys d = true → k ∈ ["fan"; "light"] → is_Some (d !! k).
Proof.
  intros Hd Hk. apply has_all_keys_lookup; [done|].
  apply list_elem_of_In. apply list_elem_of_In in Hk. simpl in *. tauto.
Qed.

End tick.

(** ** Manual locks against the oracle *)

Lemma on_off_truthy ls : ls = "on" ∨ ls = "off" → PyStr.truthy ls = true.
Proof. by intros [-> | ->]. Qed.

(** C1.  A tick that finds fan or light under a manual lock whose expiry is
    still ahead sends no relay command to that device and leaves the lock in
    place; when the tick returns, the effective decision and the stored state
    of the device are the locked state, whatever the oracle asked for; when
    it raises (a relay of the other device without address), the stored
    states are untouched.  With both relays configured the tick returns. *)
Theorem override_precedence (env : environ) (d : gmap string value) (now : Z)
    (w : world) (dev ls : string) (e : expiry) :
  dev ∈ ["fan"; "light"] →
  has_all_keys d = true →
  manual_lock w !! dev = Some (ls, e) →
  ls = "on" ∨ ls = "off" →
  lt_expiry now e = true →
  let r := decide_actuators env (Some d) now w in
  (∃ cmds, sent r.2 = sent w ++ cmds ∧ commands_to dev cmds = []) ∧
  manual_lock r.2 !! dev = Some (ls, e) ∧
  match r.1 with
  | Returns fd => fd !! dev = Some (VStr ls) ∧ last_decision r.2 !! dev = Some (VStr ls)
  | Raises _ => last_decision r.2 = last_decision w
  end ∧
  (has_ip env "fan" = true → has_ip env "light" = true → ∃ fd, r.1 = Returns fd).
Proof.
  intros Hdev Hk Hl Hls He r. subst r.
  destruct (has_all_keys_lookup d "pump" Hk) as [p Hp]; [repeat constructor|].
  pose proof (fan_light_not_pump dev Hdev) as Hnp.
  rewrite (tick_unfold env now d w Hk).
  destruct (loop_locked env d now ["fan"; "light"] dev d w ls e fan_light_NoDup Hdev Hl
              (on_off_truthy ls Hls) He) as ((cmds & Hs & Hc) & Hm & Hfd).
  destruct (loop_frame env d now ["fan"; "light"] d w) as (Hld & _).
  pose proof (loop_returns env d now ["fan"; "light"] d w) as Hret.
  destruct (fan_light_loop env d now ["fan"; "light"] d w) as [[fd1|x] w1]; simpl in *.
  - specialize (Hfd fd1 eq_refl). rewrite (pump_branch_spec d fd1 w1 p Hp).
    assert (∀ v, (<["pump" := v]> fd1) !! dev = Some (VStr ls)) as Hins.
    { intros v. by rewrite lookup_insert_ne. }
    destruct (eq_str p "on" && _); [|destruct (eq_str p "off")]; simpl;
      (split; [by exists cmds|]); (split; [done|]); (split; [|by eexists]);
      (split; [done|]); apply lookup_union_Some_l; done.
  - split; [by exists cmds|]. split; [done|]. split; [done|].
    intros Hf Hli. destruct Hret as [fd' Hfd']; [|done].
    intros k Hkin. split.
    + apply elem_of_cons in Hkin as [->|Hkin]; [done|].
      apply elem_of_cons in Hkin as [->|Hkin]; [done|]. inversion Hkin.
    + by apply fan_light_keys.
Qed.

Lemma override_precedence_witness :
  let w := step env0 initial_world (Toggle "fan" "on" (for_duration 5) 0) in
  let r := decide_actuators env0 (Some (answer "off" "on" "off")) 120 w in
  (∃ cmds, sent r.2 = sent w ++ cmds ∧ commands_to "fan" cmds = []) ∧
  manual_lock r.2 !! "fan" = Some ("on", At 300) ∧
  match r.1 with
  | Returns fd => fd !! "fan" = Some (VStr "on") ∧ last_decision r.2 !! "fan" = Some (VStr "on")
  | Raises _ => last_decision r.2 = last_decision w
  end ∧
  (has_ip env0 "fan" = true → has_ip env0 "light" = true → ∃ fd, r.1 = Returns fd).
Proof.
  apply (override_precedence env0 (answer "off" "on" "off") 120
           (step env0 initial_world (Toggle "fan" "on" (for_duration 5) 0))
           "fan" "on" (At 300)).
  - repeat constructor.
  - vm_compute; reflexivity.
  - vm_compute; reflexivity.
  - by left.
  - vm_compute; reflexivity.
Defined.

(** ** Fail-safe hold *)

(** C3.  When the oracle's answer does not parse, or parses to an object
    that lacks one of the keys fan, light, pump, the tick returns the stored
    states and changes nothing: the stored states, the locks, the threads and
    the list of relay commands sent are what they were. *)
Theorem malformed_answer_holds_state (env : environ) (now : Z) (w : world)
    (content : option (gmap string value)) :
  content = None ∨
    (∃ d k, content = Some d ∧ k ∈ ["fan"; "light"; "pump"] ∧ d !! k = None) →
  decide_actuators env content now w = (Returns (last_decision w), w).
Proof.
  intros [-> | (d & k & -> & Hk & Hnone)]; [done|].
  unfold decide_actuators.
  destruct (has_all_keys d) eqn:Hall; [|done].
  destruct (has_all_keys_lookup d k Hall Hk) as [v Hv]. congruence.
Qed.

Lemma malformed_answer_holds_state_witness :
  decide_actuators env0 None 0 initial_world
    = (Returns (last_decision initial_world), initial_world) ∧
  decide_actuators env0 (Some (<["fan" := VStr "on"]> (<["pump" := VStr "on"]> ∅))) 0 initial_world
    = (Returns (last_decision initial_world), initial_world).
Proof.
  split.
  - apply (malformed_answer_holds_state env0 0 initial_world None). by left.
  - apply (malformed_answer_holds_state env0 0 initial_world
             (Some (<["fan" := VStr "on"]> (<["pump" := VStr "on"]> ∅)))).
    right. exists (<["fan" := VStr "on"]> (<["pump" := VStr "on"]> ∅)), "light".
    split; [reflexivity|]. split; [repeat constructor | vm_compute; reflexivity].
Defined.

(** ** Devices without an active lock *)

Lemma fan_light_configured env d k :
  has_ip env "fan" = true → has_ip env "light" = true → has_all_keys d = true →
  k ∈ ["fan"; "light"] → has_ip env k = true ∧ is_Some (d !! k).
Proof.
  intros Hf Hl Hk Hin. split; [|by apply fan_light_keys].
  apply elem_of_cons in Hin as [->|Hin]; [done|].
  apply elem_of_cons in Hin as [->|Hin]; [done|]. inversion Hin.
Qed.

(** A tick, seen from a continuous device that no lock protects. *)
Lemma tick_unlocked env d now w dev v :
  dev ∈ ["fan"; "light"] →
  has_all_keys d = true →
  override_active w dev now = false →
  d !! dev = Some v →
  has_ip env "fan" = true → has_ip env "light" = true →
  ∃ fd w' cmds,
    decide_actuators env (Some d) now w = (Returns fd, w') ∧
    fd !! dev = Some v ∧
    last_decision w' !! dev = Some v ∧
    sent w' = sent w ++ cmds ∧ commands_to dev cmds = [power_of v] ∧
    manual_lock w' !! dev = manual_lock (drop_expired now dev w) !! dev.
Proof.
  intros Hdev Hk Ha Hv Hf Hl.
  destruct (has_all_keys_lookup d "pump" Hk) as [p Hp]; [repeat constructor|].
  pose proof (fan_light_not_pump dev Hdev) as Hnp.
  rewrite (tick_unfold env now d w Hk).
  destruct (loop_returns env d now ["fan"; "light"] d w) as [fd1 Hr].
  { intros k Hin. by apply fan_light_configured. }
  destruct (loop_unlocked env d now ["fan"; "light"] dev d w v fd1 fan_light_NoDup Hdev Ha Hv Hr)
    as (Hfd & (cmds & Hs & Hc) & Hm).
  destruct (fan_light_loop env d now ["fan"; "light"] d w) as [r1 w1]; simpl in *. subst r1.
  rewrite (pump_branch_spec d fd1 w1 p Hp). rewrite Hv in Hfd.
  assert (∀ x, (<["pump" := x]> fd1) !! dev = Some v) as Hins.
  { intros x. by rewrite lookup_insert_ne. }
  destruct (eq_str p "on" && _); [|destruct (eq_str p "off")];
    eexists _, _, cmds; (split; [reflexivity|]); simpl;
    (split; [done|]); (split; [by apply lookup_union_Some_l|]); done.
Qed.

(** The relay command for a decision, spelled out: On for the string "on"
    and for nothing else. *)
Lemma power_of_spec v :
  power_of v = if bool_decide (v = VStr "on") then "On" else "Off".
Proof.
  unfold power_of. destruct v as [| | |s]; simpl; try done.
  destruct (decide (s = "on")) as [->|Hne].
  - by rewrite !bool_decide_eq_true_2.
  - rewrite !bool_decide_eq_false_2; [done|congruence|done].
Qed.

(** C4, as the code has it.  For fan or light without an active lock, a
    tick that returns has sent exactly one relay command to the device,
    whether or not the oracle's decision differs from the stored state: On
    when the decision is the string "on", Off for every other decision; and
    it has stored the oracle's decision. *)
Theorem unlocked_device_commanded_every_tick (env : environ) (d : gmap string value)
    (now : Z) (w : world) (dev : string) (v : value) :
  dev ∈ ["fan"; "light"] →
  has_all_keys d = true →
  override_active w dev now = false →
  d !! dev = Some v →
  has_ip env "fan" = true → has_ip env "light" = true →
  ∃ fd w' cmds,
    decide_actuators env (Some d) now w = (Returns fd, w') ∧
    sent w' = sent w ++ cmds ∧
    commands_to dev cmds = [if bool_decide (v = VStr "on") then "On" else "Off"] ∧
    last_decision w' !! dev = Some v.
Proof.
  intros Hdev Hk Ha Hv Hf Hl.
  destruct (tick_unlocked env d now w dev v Hdev Hk Ha Hv Hf Hl)
    as (fd & w' & cmds & Hr & _ & Hld & Hs & Hc & _).
  exists fd, w', cmds. by rewrite <- power_of_spec.
Qed.

Lemma unlocked_device_commanded_every_tick_witness :
  let w := step env0 initial_world (Tick (Some (answer "off" "on" "on")) 0) in
  ∃ fd w' cmds,
    decide_actuators env0 (Some (answer "off" "on" "on")) 10 w = (Returns fd, w') ∧
    sent w' = sent w ++ cmds ∧
    commands_to "light" cmds = ["On"] ∧
    last_decision w' !! "light" = Some (VStr "on").
Proof.
  apply (unlocked_device_commanded_every_tick env0 (answer "off" "on" "on") 10
           (step env0 initial_world (Tick (Some (answer "off" "on" "on")) 0))
           "light" (VStr "on")).
  - repeat constructor.
  - vm_compute; reflexivity.
  - vm_compute; reflexivity.
  - vm_compute; reflexivity.
  - vm_compute; reflexivity.
  - vm_compute; reflexivity.
Defined.

(** C4 as stated fails: the fan is off in the store, no lock exists, the
    oracle decides off for the fan, and the tick still sends Off to it. *)
Lemma redundant_command_is_sent :
  let d := answer "off" "on" "on" in
  let r := decide_actuators env0 (Some d) 0 initial_world in
  override_active initial_world "fan" 0 = false ∧
  d !! "fan" = last_decision initial_world !! "fan" ∧
  commands_to "fan" (sent r.2) = ["Off"].
Proof. vm_compute. by repeat split. Qed.

(** ** Locks that have run out *)

Section expired.
Context (env : environ) (d : gmap string value) (now : Z).

Lemma expired_inactive w dev ls t :
  manual_lock w !! dev = Some (ls, At t) → t <= now → override_active w dev now = false.
Proof.
  intros Hl Ht. unfold override_active. rewrite Hl. simpl.
  destruct (Z.ltb_spec now t); [lia|]. apply andb_false_r.
Qed.

(** Removing the lock of one device commutes with the iteration of another. *)
Lemma body_delete_other dev dev' fd w :
  dev ≠ dev' →
  fan_light_body env d now dev' fd (set_manual_lock (delete dev) w) =
    ((fan_light_body env d now dev' fd w).1,
     set_manual_lock (delete dev) (fan_light_body env d now dev' fd w).2).
Proof.
  intros Hne.
  unfold fan_light_body, drive_relay, bind, gets, lock_get, getitem, tas_cmd. simpl.
  rewrite lookup_delete_ne by done.
  assert (∀ f, set_manual_lock (delete dev') (set_sent f (set_manual_lock (delete dev) w)) =
               set_manual_lock (delete dev) (set_manual_lock (delete dev') (set_sent f w))) as Hcomm.
  { intros f. unfold set_manual_lock, set_sent. simpl. f_equal. apply delete_delete. }
  destruct (manual_lock w !! dev') as [[ls e]|] eqn:Hl; simpl.
  - destruct (PyStr.truthy ls && lt_expiry now e); simpl; [done|].
    destruct (d !! dev'); simpl; [|done].
    destruct (has_ip env dev'); simpl; [|done].
    rewrite lookup_delete_ne, Hl by done. simpl.
    destruct (ge_expiry now e); simpl; [|done].
    unfold modify, ret. simpl. by rewrite Hcomm.
  - destruct (d !! dev'); simpl; [|done].
    destruct (has_ip env dev'); simpl; [|done].
    rewrite lookup_delete_ne, Hl by done. done.
Qed.

Lemma loop_delete_other devs dev fd w :
  dev ∉ devs →
  fan_light_loop env d now devs fd (set_manual_lock (delete dev) w) =
    ((fan_light_loop env d now devs fd w).1,
     set_manual_lock (delete dev) (fan_light_loop env d now devs fd w).2).
Proof.
  revert fd w. induction devs as [|dev' devs IH]; intros fd w Hn; simpl; [done|].
  apply not_elem_of_cons in Hn as [Hne Hn].
  unfold bind. rewrite body_delete_other by done.
  destruct (fan_light_body env d now dev' fd w) as [[fd1|x] w1]; simpl; [|done].
  by apply IH.
Qed.

(** The loop does the same from a state whose lock on [dev] has run out and
    from that state without the lock. *)
Lemma loop_expired_as_absent devs dev w ls t :
  NoDup devs → dev ∈ devs →
  (∀ k, k ∈ devs → has_ip env k = true ∧ is_Some (d !! k)) →
  manual_lock w !! dev = Some (ls, At t) → t <= now →
  fan_light_loop env d now devs d w =
    fan_light_loop env d now devs d (set_manual_lock (delete dev) w).
Proof.
  intros Hnd Hin Hall Hl Ht.
  apply list_elem_of_split in Hin as (pre & post & ->).
  apply NoDup_app in Hnd as (_ & Hpre & Hpost).
  assert (dev ∉ pre) as Hnpre by (intros Hx; apply (Hpre dev Hx); by left).
  rewrite !loop_focus, (loop_delete_other pre) by done.
  destruct (loop_returns env d now pre d w) as [fd1 Hr1].
  { intros k Hk. apply Hall, elem_of_app. by left. }
  destruct (loop_frame env d now pre d w) as (_ & _ & _ & Hm1 & _).
  destruct (fan_light_loop env d now pre d w) as [r1 w1]; simpl in *. subst r1.
  rewrite <- (Hm1 dev Hnpre) in Hl.
  destruct (Hall dev) as [Hip [v Hv]]; [apply elem_of_app; right; by left|].
  rewrite (body_unlocked env d now dev fd1 w1 v) by eauto using expired_inactive.
  rewrite (body_unlocked env d now dev fd1 (set_manual_lock (delete dev) w1) v); [|..|done|done].
  2:{ unfold override_active. simpl. by rewrite lookup_delete_eq. }
  unfold drop_expired. simpl. rewrite Hl, lookup_delete_eq. simpl.
  by destruct (Z.leb_spec t now); [|lia].
Qed.

End expired.

(** C6.  A lock on fan or light whose expiry is not ahead of the clock is
    void for the tick, the one reader of the lock table: the tick does
    exactly what it does from the same state without that lock; it returns
    with the oracle's decision as the effective and the stored state of the
    device, has sent the one relay command for that decision (On when the
    decision is the string "on", Off otherwise), and has removed the lock
    entry. *)
Theorem expired_override_is_void (env : environ) (d : gmap string value) (now : Z)
    (w : world) (dev ls : string) (t : Z) (v : value) :
  dev ∈ ["fan"; "light"] →
  has_all_keys d = true →
  manual_lock w !! dev = Some (ls, At t) →
  t <= now →
  d !! dev = Some v →
  has_ip env "fan" = true → has_ip env "light" = true →
  decide_actuators env (Some d) now w =
    decide_actuators env (Some d) now (set_manual_lock (delete dev) w) ∧
  ∃ fd w' cmds,
    decide_actuators env (Some d) now w = (Returns fd, w') ∧
    fd !! dev = Some v ∧
    last_decision w' !! dev = Some v ∧
    sent w' = sent w ++ cmds ∧
    commands_to dev cmds = [if bool_decide (v = VStr "on") then "On" else "Off"] ∧
    manual_lock w' !! dev = None.
Proof.
  intros Hdev Hk Hl Ht Hv Hf Hli. split.
  - rewrite !(tick_unfold env now d _ Hk).
    rewrite <- (loop_expired_as_absent env d now ["fan"; "light"] dev w ls t);
      auto using fan_light_NoDup.
    intros k Hin. by apply fan_light_configured.
  - destruct (tick_unlocked env d now w dev v Hdev Hk (expired_inactive now w dev ls t Hl Ht)
                Hv Hf Hli) as (fd & w' & cmds & Hr & Hfd & Hld & Hs & Hc & Hm).
    exists fd, w', cmds. rewrite <- power_of_spec. repeat (split; [done|]).
    rewrite Hm. unfold drop_expired. rewrite Hl. simpl.
    destruct (Z.leb_spec t now); [|lia]. simpl. apply lookup_delete_eq.
Qed.

Lemma expired_override_is_void_witness :
  let w := step env0 initial_world (Toggle "light" "off" (for_duration 1) 0) in
  let d := answer "off" "on" "off" in
  decide_actuators env0 (Some d) 90 w =
    decide_actuators env0 (Some d) 90 (set_manual_lock (delete "light") w) ∧
  ∃ fd w' cmds,
    decide_actuators env0 (Some d) 90 w = (Returns fd, w') ∧
    fd !! "light" = Some (VStr "on") ∧
    last_decision w' !! "light" = Some (VStr "on") ∧
    sent w' = sent w ++ cmds ∧
    commands_to "light" cmds = ["On"] ∧
    manual_lock w' !! "light" = None.
Proof.
  apply (expired_override_is_void env0 (answer "off" "on" "off") 90
           (step env0 initial_world (Toggle "light" "off" (for_duration 1) 0))
           "light" "off" 60 (VStr "on")).
  - repeat constructor.
  - vm_compute; reflexivity.
  - vm_compute; reflexivity.
  - lia.
  - vm_compute; reflexivity.
  - vm_compute; reflexivity.
  - vm_compute; reflexivity.
Defined.

(** ** The pump *)

Lemma water_pump_spec payload w :
  water_pump payload w =
    (Returns {| status := "watering"; duration := payload_int payload "duration" 5 2 |},
     set_threads (fun ts => ts ++ [T_run (payload_int payload "duration" 5 2) false]) w).
Proof. done. Qed.

(** The guard of the automatic path reads the stored pump state: a tick
    that finds it on starts no run, whatever the oracle answers. *)
Lemma pump_guard_reads_store env content now w :
  last_decision w !! "pump" = Some (VStr "on") →
  threads (decide_actuators env content now w).2 = threads w.
Proof.
  intros Hon.
  destruct content as [d|]; [|done].
  destruct (has_all_keys d) eqn:Hk; [|by unfold decide_actuators; rewrite Hk].
  rewrite (tick_unfold env now d w Hk).
  destruct (has_all_keys_lookup d "pump" Hk) as [p Hp]; [repeat constructor|].
  destruct (loop_frame env d now ["fan"; "light"] d w) as (Hld & Hth & _).
  destruct (fan_light_loop env d now ["fan"; "light"] d w) as [[fd1|x] w1]; simpl in *; [|done].
  rewrite (pump_branch_spec d fd1 w1 p Hp).
  unfold get_ne_str. rewrite Hld, Hon. simpl. rewrite andb_false_r.
  by destruct (eq_str p "off").
Qed.


(** C7.  In the thread of the manual trigger the stored pump state is off
    once the driver call has ended, however it ended.  In the thread of the
    automatic path a driver failure ends the run and leaves the stored pump
    state on. *)
Theorem automatic_run_leaks_on_driver_failure :
  (∀ drv w, last_decision (_run_leave drv w).2 !! "pump" = Some (VStr "off")) ∧
  let w := run env0 [Tick (Some (answer "off" "off" "on")) 0; Sched 0 DriverOk] initial_world in
  let w' := thread_step env0 0 DriverFails w in
  pump_runs w = [T_run_pump 2 true] ∧
  pump_runs w' = [] ∧
  last_decision w' !! "pump" = Some (VStr "on").
Proof.
  split.
  - intros [] w; apply lookup_insert_eq.
  - vm_compute. by repeat split.
Qed.

(** C8, as the code has it.  A tick whose pump decision is off returns off
    as the effective pump state and writes off into the stored pump state;
    it leaves the thread table as it was, so a run in flight goes on. *)
Theorem pump_off_decision_is_stored (env : environ) (d : gmap string value) (now : Z)
    (w : world) :
  has_all_keys d = true →
  d !! "pump" = Some (VStr "off") →
  has_ip env "fan" = true → has_ip env "light" = true →
  ∃ fd w',
    decide_actuators env (Some d) now w = (Returns fd, w') ∧
    fd !! "pump" = Some (VStr "off") ∧
    last_decision w' !! "pump" = Some (VStr "off") ∧
    threads w' = threads w.
Proof.
  intros Hk Hp Hf Hl.
  rewrite (tick_unfold env now d w Hk).
  destruct (loop_returns env d now ["fan"; "light"] d w) as [fd1 Hr].
  { intros k Hin. by apply fan_light_configured. }
  destruct (loop_frame env d now ["fan"; "light"] d w) as (_ & Hth & _).
  destruct (fan_light_loop env d now ["fan"; "light"] d w) as [r1 w1]; simpl in *. subst r1.
  rewrite (pump_branch_spec d fd1 w1 _ Hp). simpl.
  eexists _, _. split; [reflexivity|]. simpl.
  split; [apply lookup_insert_eq|]. split; [|done].
  apply lookup_union_Some_l, lookup_insert_eq.
Qed.

Lemma pump_off_decision_is_stored_witness :
  let w := run env0 [Pump (for_duration 60); Sched 0 DriverOk] initial_world in
  ∃ fd w',
    decide_actuators env0 (Some (answer "off" "on" "off")) 10 w = (Returns fd, w') ∧
    fd !! "pump" = Some (VStr "off") ∧
    last_decision w' !! "pump" = Some (VStr "off") ∧
    threads w' = threads w.
Proof.
  apply (pump_off_decision_is_stored env0 (answer "off" "on" "off") 10
           (run env0 [Pump (for_duration 60); Sched 0 DriverOk] initial_world));
    vm_compute; reflexivity.
Defined.

(** C8 as stated fails: a manual run of 60 seconds is inside the driver and
    the stored pump state is on; a tick whose pump decision is off sets the
    stored pump state to off while that run is still in flight. *)
Lemma off_decision_overwrites_running_pump :
  let w := run env0 [Pump (for_duration 60); Sched 0 DriverOk] initial_world in
  let w' := step env0 w (Tick (Some (answer "off" "on" "off")) 10) in
  pump_runs w = [T_run 60 true] ∧
  last_decision w !! "pump" = Some (VStr "on") ∧
  pump_runs w' = [T_run 60 true] ∧
  last_decision w' !! "pump" = Some (VStr "off").
Proof. vm_compute. by repeat split. Qed.

(** ** Manual commands *)

(** A release thread that wakes acts on whatever it finds: with the relay
    configured it sends its command, removes the lock of the device and
    stores its state, without looking at the lock it removes. *)
Lemma auto_release_unconditional env dev desired w :
  has_ip env dev = true →
  _auto_release env dev desired w =
    (Returns tt,
     set_last_decision (<[dev := VStr desired]>)
       (set_manual_lock (delete dev)
          (set_sent (fun l => l ++ [(dev, PyStr.capitalize desired)]) w))).
Proof. intros Hip. unfold _auto_release, bind. by rewrite tas_cmd_ok. Qed.

(** C2.  The release of a superseded lock is not a no-op: the fan is
    locked on for five minutes (A), then locked on for good (B), and when A's
    release thread wakes it sends Off to the fan, removes B's lock and stores
    off. *)
Theorem stale_release_clobbers_newer_override :
  let wA := step env0 initial_world (Toggle "fan" "on" (for_duration 5) 0) in
  let wB := step env0 wA (Toggle "fan" "on" None 120) in
  let w' := step env0 wB (Sched 0 DriverOk) in
  threads wA = [T_auto_release "fan" "off" 5] ∧
  manual_lock wA !! "fan" = Some ("on", At 300) ∧
  threads wB = [T_auto_release "fan" "off" 5] ∧
  manual_lock wB !! "fan" = Some ("on", Never) ∧
  last_decision wB !! "fan" = Some (VStr "on") ∧
  sent w' = sent wB ++ [("fan", "Off")] ∧
  manual_lock w' !! "fan" = None ∧
  last_decision w' !! "fan" = Some (VStr "off").
Proof. vm_compute. by repeat split. Qed.

Lemma accepted_action_cases a :
  a ∈ ["on"; "off"; "toggle"] → a = "on" ∨ a = "off" ∨ a = "toggle".
Proof.
  intros H. apply elem_of_cons in H as [->|H]; [by left|].
  apply elem_of_cons in H as [->|H]; [by right; left|].
  apply elem_of_cons in H as [->|H]; [by right; right|]. inversion H.
Qed.

(** What an accepted command on fan or light does, in one equation. *)
Lemma toggle_device_accepted env dev action payload now w :
  dev ∈ ["fan"; "light"] →
  PyStr.lower action ∈ ["on"; "off"; "toggle"] →
  has_ip env dev = true →
  toggle_device env dev action payload now w =
    let power_cmd := PyStr.capitalize (PyStr.lower action) in
    let duration := payload_int payload "duration" 0 0 in
    let state := if bool_decide (power_cmd = "On") then "on" else "off" in
    let expiry := if duration =? 0 then Never else At (now + duration * 60) in
    let w1 := set_manual_lock (<[dev := (state, expiry)]>)
                (set_last_decision (<[dev := VStr state]>)
                   (set_sent (fun l => l ++ [(dev, power_cmd)]) w)) in
    (Returns (Relayed (relay env dev power_cmd)),
     if 0 <? duration
     then set_threads (fun ts => ts ++ [T_auto_release dev
                         (if bool_decide (state = "on") then "off" else "on") duration]) w1
     else w1).
Proof.
  intros Hdev Hact Hip. unfold toggle_device.
  rewrite (bool_decide_eq_true_2 _ Hact), (bool_decide_eq_true_2 _ Hdev). cbn [negb].
  unfold bind. rewrite tas_cmd_ok by done. cbv zeta.
  by destruct (0 <? payload_int payload "duration" 0 0).
Qed.

(** C9.  A manual command on fan or light that the relay accepts records
    one state in the store and in the new lock, and that state is on only
    for the action on: for toggle (and for off) it is off, whatever the relay
    answers about the device. *)
Theorem toggle_records_off (env : environ) (dev action : string)
    (payload : option (gmap string Z)) (now : Z) (w : world) :
  dev ∈ ["fan"; "light"] →
  PyStr.lower action ∈ ["on"; "off"; "toggle"] →
  has_ip env dev = true →
  let r := toggle_device env dev action payload now w in
  ∃ state e,
    r.1 = Returns (Relayed (relay env dev (PyStr.capitalize (PyStr.lower action)))) ∧
    last_decision r.2 !! dev = Some (VStr state) ∧
    manual_lock r.2 !! dev = Some (state, e) ∧
    (state = "on" ↔ PyStr.lower action = "on") ∧
    (PyStr.lower action = "toggle" → state = "off").
Proof.
  intros Hdev Hact Hip r. subst r.
  rewrite (toggle_device_accepted env dev action payload now w Hdev Hact Hip). cbv zeta.
  set (state := if bool_decide (PyStr.capitalize (PyStr.lower action) = "On")
                then "on" else "off").
  set (e := if payload_int payload "duration" 0 0 =? 0 then Never
            else At (now + payload_int payload "duration" 0 0 * 60)).
  exists state, e.
  assert ((state = "on" ↔ PyStr.lower action = "on") ∧
          (PyStr.lower action = "toggle" → state = "off")) as [Hiff Htog].
  { subst state. destruct (accepted_action_cases _ Hact) as [-> | [-> | ->]];
      vm_compute; (split; [split|]); congruence. }
  destruct (0 <? payload_int payload "duration" 0 0); simpl;
    (split; [done|]); (split; [apply lookup_insert_eq|]);
    (split; [apply lookup_insert_eq|]); done.
Qed.

Lemma toggle_records_off_witness :
  let r := toggle_device env0 "light" "TOGGLE" (for_duration 10) 0 initial_world in
  ∃ state e,
    r.1 = Returns (Relayed (relay env0 "light" (PyStr.capitalize (PyStr.lower "TOGGLE")))) ∧
    last_decision r.2 !! "light" = Some (VStr state) ∧
    manual_lock r.2 !! "light" = Some (state, e) ∧
    (state = "on" ↔ PyStr.lower "TOGGLE" = "on") ∧
    (PyStr.lower "TOGGLE" = "toggle" → state = "off").
Proof.
  apply (toggle_records_off env0 "light" "TOGGLE" (for_duration 10) 0 initial_world).
  - repeat constructor.
  - vm_compute. repeat constructor.
  - vm_compute; reflexivity.
Defined.

(** C10, as the code has it.  The handler [water_pump] runs the pump for
    2 seconds when it is called with no body or with the empty object as
    body, and for 5 seconds when the body is a non-empty object without the
    key duration. *)
Theorem pump_default_duration (payload : option (gmap string Z)) (w : world) (s : Z) :
  (payload = None ∨ payload = Some ∅) ∧ s = 2 ∨
    (∃ p, payload = Some p ∧ p ≠ ∅ ∧ p !! "duration" = None) ∧ s = 5 →
  water_pump payload w =
    (Returns {| status := "watering"; duration := s |},
     set_threads (fun ts => ts ++ [T_run s false]) w).
Proof.
  intros [[[-> | ->] ->] | [(p & -> & Hne & Hnone) ->]]; rewrite water_pump_spec.
  - done.
  - done.
  - unfold payload_int, truthy_payload.
    rewrite (bool_decide_eq_false_2 _ Hne). simpl. by rewrite Hnone.
Qed.

Lemma pump_default_duration_witness :
  water_pump None initial_world =
    (Returns {| status := "watering"; duration := 2 |},
     set_threads (fun ts => ts ++ [T_run 2 false]) initial_world) ∧
  water_pump (Some (<["seconds" := 9]> ∅)) initial_world =
    (Returns {| status := "watering"; duration := 5 |},
     set_threads (fun ts => ts ++ [T_run 5 false]) initial_world).
Proof.
  split.
  - apply (pump_default_duration None initial_world 2). left. split; [by left | reflexivity].
  - apply (pump_default_duration (Some (<["seconds" := 9]> ∅)) initial_world 5).
    right. split; [|reflexivity].
    exists (<["seconds" := 9]> ∅). split; [reflexivity|].
    split; [|vm_compute; reflexivity].
    intros H. apply (f_equal (fun m : gmap string Z => m !! "seconds")) in H.
    vm_compute in H. discriminate.
Defined.

(** C10 as stated fails: the body is present, it is the empty object, it
    has no key duration, and the handler runs the pump for 2 seconds, not 5.
    Nor does the public route run the pump: main.py registers the route with
    the two path parameters before the pump route, so a request for the pump
    route is answered by [toggle_device] with device pump and action on,
    which raises and starts nothing. *)
Lemma empty_body_runs_two_seconds :
  let payload : option (gmap string Z) := Some ∅ in
  (∃ p, payload = Some p ∧ p !! "duration" = None) ∧
  (water_pump payload initial_world).1 = Returns {| status := "watering"; duration := 2 |} ∧
  threads (water_pump payload initial_world).2 = [T_run 2 false] ∧
  toggle_device env0 "pump" "on" payload 0 initial_world = (Raises ValueError, initial_world).
Proof. split; [by exists ∅|]. vm_compute. by repeat split. Qed.

(** ** What the lock table can hold *)

Section locks.
Context (env : environ).

Lemma locks_on_off_delete w dev :
  locks_on_off w → locks_on_off (set_manual_lock (delete dev) w).
Proof.
  intros H k ls e Hl. simpl in Hl.
  apply lookup_delete_Some in Hl as [_ Hl]. by apply (H k ls e).
Qed.

Lemma locks_on_off_same w w' :
  manual_lock w' = manual_lock w → locks_on_off w → locks_on_off w'.
Proof. intros Heq H k ls e Hl. rewrite Heq in Hl. by apply (H k ls e). Qed.

Lemma body_locks_on_off d now dev fd w :
  locks_on_off w → locks_on_off (fan_light_body env d now dev fd w).2.
Proof.
  intros H. unfold fan_light_body, drive_relay, bind, gets, lock_get, getitem, tas_cmd.
  destruct (manual_lock w !! dev) as [[ls e]|] eqn:Hl; simpl.
  - destruct (PyStr.truthy ls && lt_expiry now e); simpl; [done|].
    destruct (d !! dev); simpl; [|done].
    destruct (has_ip env dev); simpl; [|done].
    rewrite Hl. simpl. destruct (ge_expiry now e); simpl.
    + by apply (locks_on_off_delete (set_sent _ w)), (locks_on_off_same w).
    + by apply (locks_on_off_same w).
  - destruct (d !! dev); simpl; [|done].
    destruct (has_ip env dev); simpl; [|done].
    rewrite Hl. simpl. by apply (locks_on_off_same w).
Qed.

Lemma loop_locks_on_off d now devs fd w :
  locks_on_off w → locks_on_off (fan_light_loop env d now devs fd w).2.
Proof.
  revert fd w. induction devs as [|dev devs IH]; intros fd w H; simpl; [done|].
  unfold bind. pose proof (body_locks_on_off d now dev fd w H) as Hb.
  destruct (fan_light_body env d now dev fd w) as [[fd1|x] w1]; simpl in *; [|done].
  by apply IH.
Qed.

Lemma tick_locks_on_off content now w :
  locks_on_off w → locks_on_off (decide_actuators env content now w).2.
Proof.
  intros H. destruct content as [d|]; [|done].
  destruct (has_all_keys d) eqn:Hk; [|by unfold decide_actuators; rewrite Hk].
  rewrite (tick_unfold env now d w Hk).
  destruct (has_all_keys_lookup d "pump" Hk) as [p Hp]; [repeat constructor|].
  pose proof (loop_locks_on_off d now ["fan"; "light"] d w H) as Hl.
  destruct (fan_light_loop env d now ["fan"; "light"] d w) as [[fd1|x] w1]; simpl in *; [|done].
  rewrite (pump_branch_spec d fd1 w1 p Hp).
  destruct (eq_str p "on" && _); [|destruct (eq_str p "off")]; simpl;
    by apply (locks_on_off_same w1).
Qed.

Lemma toggle_locks_on_off dev action payload now w :
  locks_on_off w → locks_on_off (toggle_device env dev action payload now w).2.
Proof.
  intros H. unfold toggle_device.
  destruct (negb (bool_decide (PyStr.lower action ∈ ["on"; "off"; "toggle"]))); [done|].
  unfold bind, tas_cmd.
  destruct (has_ip env dev); simpl; [|done].
  destruct (bool_decide (dev ∈ ["fan"; "light"])); simpl;
    [|by apply (locks_on_off_same w)].
  destruct (0 <? payload_int payload "duration" 0 0); simpl;
    intros k ls e Hl; simpl in Hl;
    (apply lookup_insert_Some in Hl as [[_ Hl] | [_ Hl]]; [|by apply (H k ls e)]);
    injection Hl as <- _; destruct (bool_decide _); auto.
Qed.

Lemma thread_locks_on_off i drv w :
  locks_on_off w → locks_on_off (thread_step env i drv w).
Proof.
  intros H. unfold thread_step.
  destruct (threads w !! i) as [[dur [] | s [] | dev desired m]|]; [..|done].
  - destruct drv; by apply (locks_on_off_same w); [reflexivity|].
  - by apply (locks_on_off_same w); [reflexivity|].
  - destruct drv; by apply (locks_on_off_same w); [reflexivity|].
  - by apply (locks_on_off_same w); [reflexivity|].
  - unfold _auto_release, bind, tas_cmd.
    destruct (has_ip env dev); simpl; [|by apply (locks_on_off_same w)].
    intros k ls e Hl. simpl in Hl.
    apply lookup_delete_Some in Hl as [_ Hl]. by apply (H k ls e).
Qed.

(** In every state the process can reach, each lock holds on or off: the
    only writer of the lock table is [toggle_device]. *)
Lemma reachable_locks_on_off w : reachable env w → locks_on_off w.
Proof.
  induction 1 as [|w e _ IH].
  - intros k ls e Hl. simpl in Hl. by rewrite lookup_empty in Hl.
  - destruct e as [content now | dev action payload now | payload | i drv]; simpl.
    + by apply tick_locks_on_off.
    + by apply toggle_locks_on_off.
    + by apply (locks_on_off_same w).
    + by apply thread_locks_on_off.
Qed.

End locks.

(** * The rest of the backend: properties *)

(** ** data.py *)

Lemma land_3_mod (b : Z) : Z.land b 3 = b mod 4.
Proof. change 3 with (Z.ones 2). rewrite Z.land_ones by lia. reflexivity. Qed.

(** X1.  On a bus that answers with bytes, an answer of at least three
    bytes always decodes, and to a value from 0 to 1023; a shorter answer
    is the [IndexError]. *)
Theorem read_channel_range (xfer2 : list Z → list Z) (channel : Z) :
  bytes_only xfer2 →
  ((3 <= length (xfer2 (spi_request channel)))%nat →
     ∃ v, _read_channel xfer2 channel = Some v ∧ 0 <= v <= 1023) ∧
  ((length (xfer2 (spi_request channel)) < 3)%nat →
     _read_channel xfer2 channel = None).
Proof.
  intros Hb. unfold _read_channel.
  specialize (Hb (spi_request channel)).
  destruct (xfer2 (spi_request channel)) as [|b0 [|b1 [|b2 rest]]]; simpl;
    (split; [intros Hlen; try lia | intros Hlen; try lia; try done]).
  exists (Z.shiftl (Z.land b1 3) 8 + b2). split; [done|].
  assert (0 <= b2 <= 255) as H2 by (apply Hb; repeat constructor).
  rewrite land_3_mod, Z.shiftl_mul_pow2 by lia.
  pose proof (Z.mod_pos_bound b1 4 ltac:(lia)). lia.
Qed.

Lemma read_channel_range_witness :
  ∃ v, _read_channel (fun _ => [0; 2; 200]) 0 = Some v ∧ 0 <= v <= 1023.
Proof.
  apply (read_channel_range (fun _ => [0; 2; 200]) 0).
  - intros req b Hb. apply list_elem_of_In in Hb. simpl in Hb.
    destruct Hb as [<- | [<- | [<- | []]]]; lia.
  - simpl. lia.
Defined.

(** X2.  The converter's answer is decoded as the chip sends it: for a
    10-bit value [v] whose two high bits come in the low bits of the second
    byte and whose low eight bits come in the third, the result is [v],
    whatever the first byte and the six upper bits of the second hold. *)
Theorem read_channel_decodes (xfer2 : list Z → list Z) (channel v junk b0 : Z)
    (rest : list Z) :
  0 <= v <= 1023 →
  xfer2 (spi_request channel) = b0 :: (4 * junk + v / 256) :: (v mod 256) :: rest →
  _read_channel xfer2 channel = Some v.
Proof.
  intros Hv Hx. unfold _read_channel. rewrite Hx. simpl. f_equal.
  rewrite land_3_mod, Z.shiftl_mul_pow2 by lia.
  assert (0 <= v / 256 < 4) as Hq.
  { split; [apply Z.div_pos; lia | apply Z.div_lt_upper_bound; lia]. }
  replace (4 * junk + v / 256) with (v / 256 + junk * 4) by lia.
  rewrite Z.mod_add, Z.mod_small by lia.
  change (2 ^ 8) with 256. pose proof (Z.div_mod v 256 ltac:(lia)). lia.
Qed.

Lemma read_channel_decodes_witness :
  _read_channel (fun _ => [0; 4 * 37 + 700 / 256; 700 mod 256]) 2 = Some 700.
Proof.
  apply (read_channel_decodes (fun _ => [0; 4 * 37 + 700 / 256; 700 mod 256]) 2 700 37 0 []).
  - lia.
  - reflexivity.
Defined.

(** X3.  For the channels 0 to 7 the request is the start byte 1, a byte
    from 128 to 240 with the single-ended bit set, the channel in bits 4 to 6
    and an empty low nibble, and a zero byte; from channel 8 on the second
    value is no byte. *)
Theorem spi_request_selects_channel (channel : Z) :
  (0 <= channel <= 7 →
     ∃ b, spi_request channel = [1; b; 0] ∧ 128 <= b <= 240 ∧
          Z.testbit b 7 = true ∧ Z.land (Z.shiftr b 4) 7 = channel ∧
          Z.land b 15 = 0) ∧
  (8 <= channel → ∃ b, spi_request channel = [1; b; 0] ∧ 255 < b).
Proof.
  split.
  - intros Hc. exists (Z.shiftl (8 + channel) 4). split; [done|].
    assert (channel = 0 ∨ channel = 1 ∨ channel = 2 ∨ channel = 3 ∨
            channel = 4 ∨ channel = 5 ∨ channel = 6 ∨ channel = 7) as Hcases by lia.
    destruct Hcases as [-> | [-> | [-> | [-> | [-> | [-> | [-> | ->]]]]]]];
      vm_compute; repeat split; congruence.
  - intros Hc. exists (Z.shiftl (8 + channel) 4). split; [done|].
    rewrite Z.shiftl_mul_pow2 by lia. change (2 ^ 4) with 16. lia.
Qed.

Lemma spi_request_selects_channel_witness :
  (∃ b, spi_request 5 = [1; b; 0] ∧ 128 <= b <= 240 ∧
        Z.testbit b 7 = true ∧ Z.land (Z.shiftr b 4) 7 = 5 ∧ Z.land b 15 = 0) ∧
  (∃ b, spi_request 9 = [1; b; 0] ∧ 255 < b).
Proof.
  split.
  - apply (proj1 (spi_request_selects_channel 5)). lia.
  - apply (proj2 (spi_request_selects_channel 9)). lia.
Defined.

(** ** main.py: the actuator stream *)

Lemma ws_head_differs polls last_sent s :
  head (ws_actuators polls last_sent) = Some s → Some s ≠ last_sent.
Proof.
  induction polls as [|state rest IH]; simpl; [done|].
  case_bool_decide as Hd; simpl; [|done]. by intros [= <-].
Qed.

Lemma ws_adjacent_differ polls last_sent i a b :
  ws_actuators polls last_sent !! i = Some a →
  ws_actuators polls last_sent !! S i = Some b → a ≠ b.
Proof.
  revert last_sent i. induction polls as [|state rest IH]; intros last_sent i; simpl; [done|].
  case_bool_decide as Hd; [|by apply IH].
  destruct i as [|i]; simpl; [|by apply IH].
  intros [= <-] Hb Heq. subst b.
  apply (ws_head_differs rest (Some state) state); [|done].
  by destruct (ws_actuators rest (Some state)); simplify_eq/=.
Qed.

Lemma ws_sublist polls last_sent : sublist (ws_actuators polls last_sent) polls.
Proof.
  revert last_sent. induction polls as [|state rest IH]; intros last_sent; simpl.
  - constructor.
  - case_bool_decide; [by apply sublist_skip | by apply sublist_cons].
Qed.

(** X4.  The stream never sends the same state twice in a row, sends
    nothing it has not polled, and keeps the order of the polls; its first
    message is the first state polled. *)
Theorem ws_suppresses_duplicates (polls : list (gmap string value)) :
  (∀ i a b, ws_actuators polls None !! i = Some a →
            ws_actuators polls None !! S i = Some b → a ≠ b) ∧
  sublist (ws_actuators polls None) polls ∧
  head (ws_actuators polls None) = head polls.
Proof.
  split; [|split].
  - intros i a b. apply ws_adjacent_differ.
  - apply ws_sublist.
  - by destruct polls.
Qed.






(** ** tasmota.py: the request *)

Lemma string_app_inv_head (p a b : string) :
  String.append p a = String.append p b → a = b.
Proof. induction p as [|c p IH]; simpl; [done|]. intros [= H]. by apply IH. Qed.

(** X6.  For one relay address, two commands that give the same URL are
    the same command: the separator that is left out for the empty command
    never makes two requests collide. *)
Theorem cmd_url_determines_command (ip c1 c2 : string) :
  cmd_url ip c1 = cmd_url ip c2 → c1 = c2.
Proof.
  unfold cmd_url. intros H.
  do 3 apply string_app_inv_head in H.
  destruct c1 as [|a1 r1], c2 as [|a2 r2]; simpl in H; try done.
  by apply (string_app_inv_head "%20") in H.
Qed.

Lemma cmd_url_determines_command_witness : "Toggle" = "Toggle".
Proof. apply (cmd_url_determines_command "10.0.0.7" "Toggle" "Toggle"). reflexivity. Defined.

(** ** chat.py *)

Lemma slice_last_length {A} (n : nat) (l : list A) :
  length (Chat.slice_last n l) = (length l `min` n)%nat.
Proof. unfold Chat.slice_last. rewrite length_drop. lia. Qed.

Lemma slice_last_app {A} (n : nat) (old recent : list A) :
  (n <= length recent)%nat →
  Chat.slice_last n (old ++ recent) = Chat.slice_last n recent.
Proof.
  intros Hn. unfold Chat.slice_last. rewrite length_app.
  replace (length old + length recent - n)%nat
    with (length old + (length recent - n))%nat by lia.
  apply drop_app_add.
Qed.

(** X7.  The endpoint answers with a response or with status 500 and
    nothing else.  A response carries the last twenty entries of the history
    it was given, then the user's message, then the reply: at most 22
    entries, however long the history was. *)
Theorem chat_history_bounded (system_msg : option Chat.lc_message)
    (ainvoke : list Chat.lc_message → option string) (req : Chat.ChatReq) :
  match Chat.chat system_msg ainvoke req with
  | Chat.Ok200 resp =>
      Chat.new_history resp =
        Chat.slice_last 20 (default [] (Chat.history req)) ++
        [Chat.entry "user" (Chat.message req);
         Chat.entry "assistant" (Chat.reply resp)] ∧
      length (Chat.new_history resp)
        = (length (default [] (Chat.history req)) `min` 20 + 2)%nat ∧
      (length (Chat.new_history resp) <= 22)%nat
  | Chat.HTTPError status_code => status_code = 500
  end.
Proof.
  unfold Chat.chat. destruct system_msg as [sys|]; [|done].
  destruct (Chat.lc_messages sys req) as [msgs|]; [|done].
  destruct (ainvoke msgs) as [r|]; [|done]. simpl.
  split; [done|]. rewrite length_app, slice_last_length. simpl. lia.
Qed.

(** X8.  What goes to the model starts with the system message, ends with
    the user's message as a human message, and holds at most twenty messages
    of history in between. *)
Theorem chat_prompt_shape (system_msg : Chat.lc_message) (req : Chat.ChatReq)
    (msgs : list Chat.lc_message) :
  Chat.lc_messages system_msg req = Some msgs →
  head msgs = Some system_msg ∧
  last msgs = Some (Chat.HumanMessage (Chat.message req)) ∧
  length msgs = (length (default [] (Chat.history req)) `min` 20 + 2)%nat.
Proof.
  unfold Chat.lc_messages.
  destruct (mapM Chat.lc_of _) as [lc|] eqn:Hm; [|done]. intros [= <-].
  apply length_mapM in Hm. rewrite slice_last_length in Hm.
  split; [done|]. split.
  - by rewrite last_cons, last_snoc.
  - simpl. rewrite length_app. simpl. lia.
Qed.

Lemma chat_prompt_shape_witness :
  let req := {| Chat.message := "hello";
                Chat.history := Some [Chat.entry "user" "hi"; Chat.entry "assistant" "yes"] |} in
  let msgs := [Chat.SystemMessage "sys"; Chat.HumanMessage "hi"; Chat.AIMessage "yes";
               Chat.HumanMessage "hello"] in
  head msgs = Some (Chat.SystemMessage "sys") ∧
  last msgs = Some (Chat.HumanMessage (Chat.message req)) ∧
  length msgs = (length (default [] (Chat.history req)) `min` 20 + 2)%nat.
Proof.
  apply (chat_prompt_shape (Chat.SystemMessage "sys")
           {| Chat.message := "hello";
              Chat.history := Some [Chat.entry "user" "hi"; Chat.entry "assistant" "yes"] |}).
  vm_compute; reflexivity.
Defined.

(** X9.  Only the last twenty entries of the history count: whatever
    comes before them, well formed or not, changes nothing in the answer. *)
Theorem chat_only_last_twenty_count (system_msg : option Chat.lc_message)
    (ainvoke : list Chat.lc_message → option string) (message : string)
    (old recent : list (gmap string string)) :
  (20 <= length recent)%nat →
  Chat.chat system_msg ainvoke {| Chat.message := message; Chat.history := Some (old ++ recent) |}
  = Chat.chat system_msg ainvoke {| Chat.message := message; Chat.history := Some recent |}.
Proof.
  intros Hlen. unfold Chat.chat, Chat.lc_messages. simpl.
  by rewrite (slice_last_app 20 old recent Hlen).
Qed.

Lemma chat_only_last_twenty_count_witness :
  Chat.chat (Some (Chat.SystemMessage "sys")) (fun _ => Some "ok")
    {| Chat.message := "m";
       Chat.history := Some ([∅] ++ replicate 20 (Chat.entry "user" "x")) |}
  = Chat.chat (Some (Chat.SystemMessage "sys")) (fun _ => Some "ok")
    {| Chat.message := "m";
       Chat.history := Some (replicate 20 (Chat.entry "user" "x")) |}.
Proof.
  apply (chat_only_last_twenty_count (Some (Chat.SystemMessage "sys")) (fun _ => Some "ok")
           "m" [∅] (replicate 20 (Chat.entry "user" "x"))).
  vm_compute. lia.
Defined.

(** X10.  An entry without role or without content among the last twenty
    makes the endpoint answer 500, whatever the model would have said. *)
Theorem chat_malformed_entry_fails (system_msg : option Chat.lc_message)
    (ainvoke : list Chat.lc_message → option string) (req : Chat.ChatReq)
    (m : gmap string string) :
  m ∈ Chat.slice_last 20 (default [] (Chat.history req)) →
  m !! "role" = None ∨ m !! "content" = None →
  Chat.chat system_msg ainvoke req = Chat.HTTPError 500.
Proof.
  intros Hin Hbad. unfold Chat.chat. destruct system_msg as [sys|]; [|done].
  unfold Chat.lc_messages.
  rewrite (proj2 (mapM_None Chat.lc_of _)); [done|].
  apply Exists_exists. exists m. split; [done|].
  unfold Chat.lc_of. destruct Hbad as [-> | Hc]; [done|].
  destruct (m !! "role"); [by rewrite Hc | done].
Qed.

Lemma chat_malformed_entry_fails_witness :
  Chat.chat (Some (Chat.SystemMessage "sys")) (fun _ => Some "ok")
    {| Chat.message := "m";
       Chat.history := Some [<["role" := "user"]> ∅; Chat.entry "assistant" "x"] |}
  = Chat.HTTPError 500.
Proof.
  apply (chat_malformed_entry_fails (Some (Chat.SystemMessage "sys")) (fun _ => Some "ok")
           {| Chat.message := "m";
              Chat.history := Some [<["role" := "user"]> ∅; Chat.entry "assistant" "x"] |}
           (<["role" := "user"]> ∅)).
  - vm_compute. repeat constructor.
  - right. vm_compute; reflexivity.
Defined.

(** ** yolo_integration.py *)

(** X11.  The capture endpoint never answers 404: the 404 that its [try]
    block raises for a missing image is caught by its own [except Exception]
    and leaves as 500, like every other failure. *)
Theorem capture_never_answers_404 (e : Yolo.surroundings) (s : Yolo.state) :
  ((Yolo.capture_image e s).1 = None ∨ (Yolo.capture_image e s).1 = Some 500) ∧
  ((Yolo.capture_body e s).1 = Some (Yolo.HTTPException 404) ↔
     Yolo.chdir_ok e Yolo.yolo_dir = true ∧ Yolo.pipeline_ok e = true ∧
     Yolo.chdir_ok e Yolo.current_dir = true ∧ Yolo.image_exists e = false).
Proof.
  unfold Yolo.capture_image, Yolo.capture_body.
  destruct (Yolo.chdir_ok e Yolo.yolo_dir), (Yolo.pipeline_ok e),
    (Yolo.chdir_ok e Yolo.current_dir), (Yolo.image_exists e); simpl;
    (split; [auto|]); split; (try done); intros (? & ? & ? & ?); done.
Qed.

(** X12.  After a capture the scheduler holds at most one job, whatever it
    held before.  When the capture succeeds there is exactly one, with the
    pipeline's period, and the working directory is the backend's; when the
    pipeline raises there is none left and the working directory stays in
    the pipeline's directory. *)
Theorem capture_reschedules_once (e : Yolo.surroundings) (s : Yolo.state) :
  (length (Yolo.jobs (Yolo.capture_image e s).2) <= 1)%nat ∧
  ((Yolo.capture_image e s).1 = None →
     Yolo.jobs (Yolo.capture_image e s).2 = [Yolo.CHECK_INTERVAL e] ∧
     Yolo.cwd (Yolo.capture_image e s).2 = Yolo.current_dir) ∧
  (Yolo.chdir_ok e Yolo.yolo_dir = true → Yolo.pipeline_ok e = false →
     Yolo.jobs (Yolo.capture_image e s).2 = [] ∧
     Yolo.cwd (Yolo.capture_image e s).2 = Yolo.yolo_dir).
Proof.
  unfold Yolo.capture_image, Yolo.capture_body.
  destruct (Yolo.chdir_ok e Yolo.yolo_dir), (Yolo.pipeline_ok e),
    (Yolo.chdir_ok e Yolo.current_dir), (Yolo.image_exists e); simpl;
    (split; [lia|]); split; done.
Qed.

Lemma capture_reschedules_once_witness :
  let ok := {| Yolo.CHECK_INTERVAL := 30; Yolo.chdir_ok := fun _ => true;
               Yolo.pipeline_ok := true; Yolo.image_exists := true |} in
  let bad := {| Yolo.CHECK_INTERVAL := 30; Yolo.chdir_ok := fun _ => true;
                Yolo.pipeline_ok := false; Yolo.image_exists := true |} in
  let s := {| Yolo.jobs := [30; 30; 30]; Yolo.cwd := Yolo.current_dir |} in
  (Yolo.jobs (Yolo.capture_image ok s).2 = [30] ∧
   Yolo.cwd (Yolo.capture_image ok s).2 = Yolo.current_dir) ∧
  (Yolo.jobs (Yolo.capture_image bad s).2 = [] ∧
   Yolo.cwd (Yolo.capture_image bad s).2 = Yolo.yolo_dir).
Proof.
  split.
  - apply (capture_reschedules_once
             {| Yolo.CHECK_INTERVAL := 30; Yolo.chdir_ok := fun _ => true;
                Yolo.pipeline_ok := true; Yolo.image_exists := true |}
             {| Yolo.jobs := [30; 30; 30]; Yolo.cwd := Yolo.current_dir |}).
    reflexivity.
  - apply (capture_reschedules_once
             {| Yolo.CHECK_INTERVAL := 30; Yolo.chdir_ok := fun _ => true;
                Yolo.pipeline_ok := false; Yolo.image_exists := true |}
             {| Yolo.jobs := [30; 30; 30]; Yolo.cwd := Yolo.current_dir |});
      reflexivity.
Defined.

(** * The arbitration core: further properties *)

(** ** Manual commands that are turned down *)

Lemma has_ip_fan_light env dev : has_ip env dev = true → dev ∈ ["fan"; "light"].
Proof.
  unfold has_ip, IP. intros H.
  destruct (decide (dev = "fan")) as [->|Hf]; [by left|].
  destruct (decide (dev = "light")) as [->|Hl]; [by right; left|].
  rewrite lookup_insert_ne, lookup_insert_ne, lookup_empty in H by done. done.
Qed.

(** X13.  A manual command that is turned down leaves no trace.  An action
    other than on, off, toggle gets the error dict; an accepted action on a
    device that is not fan or light, or whose relay has no address, raises
    [ValueError]; in both cases no relay command is sent and the stored
    states, the locks and the threads are what they were. *)
Theorem toggle_rejected_leaves_no_trace (env : environ) (dev action : string)
    (payload : option (gmap string Z)) (now : Z) (w : world) :
  (PyStr.lower action ∉ ["on"; "off"; "toggle"] →
     toggle_device env dev action payload now w
       = (Returns (ActionError "action must be on/off/toggle"), w)) ∧
  (PyStr.lower action ∈ ["on"; "off"; "toggle"] →
   dev ∉ ["fan"; "light"] ∨ has_ip env dev = false →
     toggle_device env dev action payload now w = (Raises ValueError, w)).
Proof.
  split.
  - intros Hact. unfold toggle_device. by rewrite (bool_decide_eq_false_2 _ Hact).
  - intros Hact Hdev. unfold toggle_device.
    rewrite (bool_decide_eq_true_2 _ Hact). cbn [negb]. unfold bind.
    rewrite tas_cmd_fail; [done|].
    destruct Hdev as [Hdev|Hdev]; [|done].
    destruct (has_ip env dev) eqn:Hip; [|done].
    by apply has_ip_fan_light in Hip.
Qed.

Lemma toggle_rejected_leaves_no_trace_witness :
  toggle_device env0 "fan" "dim" None 0 initial_world
    = (Returns (ActionError "action must be on/off/toggle"), initial_world) ∧
  toggle_device env0 "pump" "on" None 0 initial_world
    = (Raises ValueError, initial_world).
Proof.
  split.
  - apply (proj1 (toggle_rejected_leaves_no_trace env0 "fan" "dim" None 0 initial_world)).
    vm_compute. intros H. repeat (apply elem_of_cons in H as [H|H]; [discriminate|]).
    inversion H.
  - apply (proj2 (toggle_rejected_leaves_no_trace env0 "pump" "on" None 0 initial_world)).
    + repeat constructor.
    + left. intros H. repeat (apply elem_of_cons in H as [H|H]; [discriminate|]).
      inversion H.
Defined.

(** ** What a tick writes *)

Lemma eq_str_true v lit : eq_str v lit = true → v = VStr lit.
Proof.
  destruct v as [| | |s]; simpl; try done.
  intros H. apply bool_decide_eq_true in H. by subst.
Qed.

Lemma active_lock w dev now :
  override_active w dev now = true →
  ∃ ls e, manual_lock w !! dev = Some (ls, e) ∧
          PyStr.truthy ls = true ∧ lt_expiry now e = true.
Proof.
  unfold override_active. destruct (manual_lock w !! dev) as [[ls e]|]; [|done].
  intros [? ?]%andb_true_iff. by exists ls, e.
Qed.

(** The effective decision that the loop hands on, key by key. *)
Lemma loop_final env d now devs fd w fd' :
  NoDup devs →
  (∀ k, k ∈ devs → is_Some (d !! k)) →
  (fan_light_loop env d now devs fd w).1 = Returns fd' →
  ∀ k, fd' !! k =
         if bool_decide (k ∈ devs) && override_active w k now
         then VStr <$> (fst <$> manual_lock w !! k)
         else fd !! k.
Proof.
  intros Hnd Hkeys Hr k.
  destruct (decide (k ∈ devs)) as [Hin|Hnin].
  - rewrite (bool_decide_eq_true_2 _ Hin). simpl.
    destruct (override_active w k now) eqn:Ha.
    + destruct (active_lock w k now Ha) as (ls & e & Hl & Ht & He).
      destruct (loop_locked env d now devs k fd w ls e Hnd Hin Hl Ht He) as (_ & _ & Hfd).
      rewrite Hl. simpl. by apply Hfd.
    + destruct (Hkeys k Hin) as [v Hv].
      by destruct (loop_unlocked env d now devs k fd w v fd' Hnd Hin Ha Hv Hr) as (Hfd & _).
  - rewrite (bool_decide_eq_false_2 _ Hnin). simpl.
    destruct (loop_frame env d now devs fd w) as (_ & _ & _ & _ & Hf).
    by apply Hf.
Qed.

(** X14.  What a well-formed tick leaves in the store, key by key.  When
    it returns, the effective decision holds the locked state for fan or
    light under an active lock and the oracle's own value for every other
    key of the answer, the pump included; the store takes every key of the
    effective decision, also keys the backend does not know, and keeps the
    rest.  When it raises, the store is as it was. *)
Theorem tick_store_characterised (env : environ) (d : gmap string value) (now : Z)
    (w : world) :
  has_all_keys d = true →
  match (decide_actuators env (Some d) now w).1 with
  | Returns fd =>
      ∀ k,
        fd !! k = (if bool_decide (k ∈ ["fan"; "light"]) && override_active w k now
                   then VStr <$> (fst <$> manual_lock w !! k)
                   else d !! k) ∧
        last_decision (decide_actuators env (Some d) now w).2 !! k =
          match fd !! k with
          | Some v => Some v
          | None => last_decision w !! k
          end
  | Raises _ => last_decision (decide_actuators env (Some d) now w).2 = last_decision w
  end.
Proof.
  intros Hk. rewrite (tick_unfold env now d w Hk).
  destruct (has_all_keys_lookup d "pump" Hk) as [p Hp]; [repeat constructor|].
  pose proof (loop_final env d now ["fan"; "light"] d w) as Hfinal.
  destruct (loop_frame env d now ["fan"; "light"] d w) as (Hld & _).
  destruct (fan_light_loop env d now ["fan"; "light"] d w) as [[fd1|x] w1]; simpl in *; [|done].
  specialize (Hfinal fd1 fan_light_NoDup (fun k => fan_light_keys d k Hk) eq_refl).
  rewrite (pump_branch_spec d fd1 w1 p Hp).
  assert (fd1 !! "pump" = Some p) as Hp1 by (by rewrite Hfinal).
  assert (∀ fd2 w2, fd2 !! "pump" = Some p →
            (∀ k, k ≠ "pump" → fd2 !! k = fd1 !! k) →
            last_decision w2 = last_decision w →
            ∀ k, fd2 !! k = (if bool_decide (k ∈ ["fan"; "light"]) && override_active w k now
                             then VStr <$> (fst <$> manual_lock w !! k) else d !! k) ∧
                 (fd2 ∪ last_decision w2) !! k =
                   match fd2 !! k with Some v => Some v | None => last_decision w !! k end)
    as Hgen.
  { intros fd2 w2 Hpump Hother Hw2 k. split.
    - destruct (decide (k = "pump")) as [->|Hne].
      + rewrite Hpump. by rewrite bool_decide_eq_false_2 by (by intros ?%fan_light_not_pump).
      + by rewrite Hother, Hfinal.
    - rewrite lookup_union, Hw2.
      by destruct (fd2 !! k), (last_decision w !! k). }
  destruct (eq_str p "on" && _) eqn:Hon; [|destruct (eq_str p "off") eqn:Hoff]; simpl.
  - apply andb_true_iff in Hon as [->%eq_str_true _].
    apply Hgen; [apply lookup_insert_eq | by intros; rewrite lookup_insert_ne | done].
  - apply eq_str_true in Hoff as ->.
    apply Hgen; [apply lookup_insert_eq | by intros; rewrite lookup_insert_ne | done].
  - by apply Hgen.
Qed.

Lemma tick_store_characterised_witness :
  let w := step env0 initial_world (Toggle "fan" "on" None 0) in
  let d := <["note" := VInt 7]> (answer "off" "ON" "auto") in
  match (decide_actuators env0 (Some d) 10 w).1 with
  | Returns fd =>
      ∀ k,
        fd !! k = (if bool_decide (k ∈ ["fan"; "light"]) && override_active w k 10
                   then VStr <$> (fst <$> manual_lock w !! k)
                   else d !! k) ∧
        last_decision (decide_actuators env0 (Some d) 10 w).2 !! k =
          match fd !! k with
          | Some v => Some v
          | None => last_decision w !! k
          end
  | Raises _ => last_decision (decide_actuators env0 (Some d) 10 w).2 = last_decision w
  end.
Proof.
  apply (tick_store_characterised env0 (<["note" := VInt 7]> (answer "off" "ON" "auto")) 10
           (step env0 initial_world (Toggle "fan" "on" None 0))).
  vm_compute; reflexivity.
Defined.

(** ** What a tick does to the locks *)

Lemma body_locks_shrink env d now dev fd w k :
  let w' := (fan_light_body env d now dev fd w).2 in
  manual_lock w' !! k = manual_lock w !! k ∨
  (manual_lock w' !! k = None ∧ k = dev ∧
   ∃ ls e, manual_lock w !! k = Some (ls, e) ∧ ge_expiry now e = true).
Proof.
  unfold fan_light_body, drive_relay, bind, gets, lock_get, getitem, tas_cmd.
  destruct (manual_lock w !! dev) as [[ls e]|] eqn:Hl; simpl.
  - destruct (PyStr.truthy ls && lt_expiry now e); simpl; [by left|].
    destruct (d !! dev); simpl; [|by left].
    destruct (has_ip env dev); simpl; [|by left].
    rewrite Hl. simpl. destruct (ge_expiry now e) eqn:Hge; simpl; [|by left].
    destruct (decide (k = dev)) as [->|Hne].
    + right. rewrite lookup_delete_eq. repeat split; try done. by exists ls, e.
    + left. by rewrite lookup_delete_ne.
  - destruct (d !! dev); simpl; [|by left].
    destruct (has_ip env dev); simpl; [|by left].
    rewrite Hl. simpl. by left.
Qed.

Lemma loop_locks_shrink env d now devs fd w k :
  let w' := (fan_light_loop env d now devs fd w).2 in
  manual_lock w' !! k = manual_lock w !! k ∨
  (manual_lock w' !! k = None ∧ k ∈ devs ∧
   ∃ ls e, manual_lock w !! k = Some (ls, e) ∧ ge_expiry now e = true).
Proof.
  revert fd w. induction devs as [|dev devs IH]; intros fd w; simpl; [by left|].
  unfold bind. pose proof (body_locks_shrink env d now dev fd w k) as Hb.
  destruct (fan_light_body env d now dev fd w) as [[fd1|x] w1]; simpl in *.
  - destruct (IH fd1 w1) as [Hsame | (Hnone & Hin & ls & e & Hl & Hge)].
    + destruct Hb as [Hb | (Hb & -> & Hex)].
      * left. congruence.
      * right. split; [congruence|]. split; [by left | done].
    + destruct Hb as [Hb | (Hb & _)]; [|congruence].
      right. split; [done|]. split; [by right|]. exists ls, e. by rewrite <- Hb.
  - destruct Hb as [Hb | (Hb & -> & Hex)]; [by left|].
    right. split; [done|]. split; [by left | done].
Qed.

(** X15.  The automatic path never writes a lock.  Whatever the oracle
    answers, after the tick every lock entry is what it was, except entries
    of fan or light whose expiry was not ahead of the clock, which may be
    gone. *)
Theorem tick_only_drops_expired_locks (env : environ)
    (content : option (gmap string value)) (now : Z) (w : world) (k : string) :
  manual_lock (decide_actuators env content now w).2 !! k = manual_lock w !! k ∨
  (manual_lock (decide_actuators env content now w).2 !! k = None ∧
   k ∈ ["fan"; "light"] ∧
   ∃ ls e, manual_lock w !! k = Some (ls, e) ∧ ge_expiry now e = true).
Proof.
  destruct content as [d|]; [|by left].
  destruct (has_all_keys d) eqn:Hk; [|by left; unfold decide_actuators; rewrite Hk].
  rewrite (tick_unfold env now d w Hk).
  destruct (has_all_keys_lookup d "pump" Hk) as [p Hp]; [repeat constructor|].
  pose proof (loop_locks_shrink env d now ["fan"; "light"] d w k) as Hl.
  destruct (fan_light_loop env d now ["fan"; "light"] d w) as [[fd1|x] w1]; simpl in *; [|done].
  rewrite (pump_branch_spec d fd1 w1 p Hp).
  by destruct (eq_str p "on" && _); [|destruct (eq_str p "off")].
Qed.

(** ** Locks over many ticks *)

(** A tick, whatever the oracle answers, seen from a device under an active
    lock. *)
Lemma tick_locked env content now w dev ls e :
  dev ∈ ["fan"; "light"] →
  manual_lock w !! dev = Some (ls, e) →
  PyStr.truthy ls = true → lt_expiry now e = true →
  let w' := (decide_actuators env content now w).2 in
  manual_lock w' !! dev = Some (ls, e) ∧
  (∃ cmds, sent w' = sent w ++ cmds ∧ commands_to dev cmds = []) ∧
  (last_decision w !! dev = Some (VStr ls) → last_decision w' !! dev = Some (VStr ls)).
Proof.
  intros Hdev Hl Ht He.
  assert (∃ cmds : list (string * string),
            sent w = sent w ++ cmds ∧ commands_to dev cmds = []) as Hnil.
  { exists []. by rewrite app_nil_r. }
  destruct content as [d|]; [|done].
  destruct (has_all_keys d) eqn:Hk; [|by unfold decide_actuators; rewrite Hk].
  cbv zeta. rewrite (tick_unfold env now d w Hk).
  destruct (has_all_keys_lookup d "pump" Hk) as [p Hp]; [repeat constructor|].
  pose proof (fan_light_not_pump dev Hdev) as Hnp.
  destruct (loop_locked env d now ["fan"; "light"] dev d w ls e fan_light_NoDup Hdev Hl Ht He)
    as (Hs & Hm & Hfd).
  destruct (loop_frame env d now ["fan"; "light"] d w) as (Hld & _).
  destruct (fan_light_loop env d now ["fan"; "light"] d w) as [[fd1|x] w1]; simpl in *.
  - specialize (Hfd fd1 eq_refl). rewrite (pump_branch_spec d fd1 w1 p Hp).
    assert (∀ v, (<["pump" := v]> fd1) !! dev = Some (VStr ls)) as Hins.
    { intros v. by rewrite lookup_insert_ne. }
    destruct (eq_str p "on" && _); [|destruct (eq_str p "off")]; simpl;
      (split; [done|]); (split; [done|]); intros _; by apply lookup_union_Some_l.
  - split; [done|]. split; [done|]. by rewrite Hld.
Qed.

(** X16.  A lock without expiry outlives the control loop: however many
    ticks run and whatever the oracle answers in each, the lock is still
    there, the store still holds the locked state, and the loop has sent no
    command to the device. *)
Theorem indefinite_lock_outlives_ticks (env : environ)
    (ticks : list (option (gmap string value) * Z)) (w : world) (dev ls : string) :
  dev ∈ ["fan"; "light"] →
  manual_lock w !! dev = Some (ls, Never) →
  ls = "on" ∨ ls = "off" →
  last_decision w !! dev = Some (VStr ls) →
  let w' := (run_control_loop env ticks w).2 in
  manual_lock w' !! dev = Some (ls, Never) ∧
  last_decision w' !! dev = Some (VStr ls) ∧
  ∃ cmds, sent w' = sent w ++ cmds ∧ commands_to dev cmds = [].
Proof.
  intros Hdev Hl Hls Hst. cbv zeta. revert w Hl Hst.
  induction ticks as [|[content now] ticks IH]; intros w Hl Hst; simpl.
  - repeat split; try done. exists []. by rewrite app_nil_r.
  - destruct (tick_locked env content now w dev ls Never Hdev Hl (on_off_truthy ls Hls) eq_refl)
      as (Hl1 & (c1 & Hs1 & Hc1) & Hst1).
    specialize (Hst1 Hst). unfold bind.
    destruct (decide_actuators env content now w) as [[fd|x] w1]; simpl in *.
    + destruct (IH w1 Hl1 Hst1) as (Hl2 & Hst2 & c2 & Hs2 & Hc2).
      split; [done|]. split; [done|]. exists (c1 ++ c2).
      split; [by rewrite Hs2, Hs1, app_assoc|].
      by rewrite commands_to_app, Hc1, Hc2.
    + split; [done|]. split; [done|]. by exists c1.
Qed.

Lemma indefinite_lock_outlives_ticks_witness :
  let w := step env0 initial_world (Toggle "light" "on" None 0) in
  let w' := (run_control_loop env0
               [(Some (answer "on" "off" "on"), 10); (None, 20);
                (Some (answer "off" "off" "off"), 30)] w).2 in
  manual_lock w' !! "light" = Some ("on", Never) ∧
  last_decision w' !! "light" = Some (VStr "on") ∧
  ∃ cmds, sent w' = sent w ++ cmds ∧ commands_to "light" cmds = [].
Proof.
  apply (indefinite_lock_outlives_ticks env0
           [(Some (answer "on" "off" "on"), 10); (None, 20);
            (Some (answer "off" "off" "off"), 30)]
           (step env0 initial_world (Toggle "light" "on" None 0)) "light" "on").
  - repeat constructor.
  - vm_compute; reflexivity.
  - by left.
  - vm_compute; reflexivity.
Defined.

(** ** Timed commands *)

(** X17.  A timed manual command and its release, with nothing in between:
    the command starts one release thread; when that thread wakes it sends
    the opposite command, removes the lock and stores the opposite state.
    The opposite of toggle is on, as for off. *)
Theorem timed_command_then_release (env : environ) (dev action : string)
    (payload : option (gmap string Z)) (now : Z) (w : world) (drv : driver) :
  dev ∈ ["fan"; "light"] →
  PyStr.lower action ∈ ["on"; "off"; "toggle"] →
  has_ip env dev = true →
  0 < payload_int payload "duration" 0 0 →
  let w1 := (toggle_device env dev action payload now w).2 in
  let w2 := thread_step env (length (threads w)) drv w1 in
  let back := if bool_decide (PyStr.lower action = "on") then "off" else "on" in
  threads w1 = threads w ++ [T_auto_release dev back (payload_int payload "duration" 0 0)] ∧
  threads w2 = threads w ∧
  manual_lock w2 !! dev = None ∧
  last_decision w2 !! dev = Some (VStr back) ∧
  sent w2 = sent w ++ [(dev, PyStr.capitalize (PyStr.lower action));
                       (dev, PyStr.capitalize back)].
Proof.
  intros Hdev Hact Hip Hd. cbv zeta.
  rewrite (toggle_device_accepted env dev action payload now w Hdev Hact Hip). cbv zeta.
  apply Z.ltb_lt in Hd. rewrite Hd.
  set (dur := payload_int payload "duration" 0 0).
  assert ((if bool_decide
                ((if bool_decide (PyStr.capitalize (PyStr.lower action) = "On")
                  then "on" else "off") = "on")
           then "off" else "on")
          = (if bool_decide (PyStr.lower action = "on") then "off" else "on")) as ->.
  { destruct (accepted_action_cases _ Hact) as [-> | [-> | ->]]; reflexivity. }
  set (back := if bool_decide (PyStr.lower action = "on") then "off" else "on").
  unfold thread_step. simpl.
  rewrite list_lookup_middle by done.
  rewrite auto_release_unconditional by done. simpl.
  rewrite delete_middle, app_nil_r, lookup_delete_eq, lookup_insert_eq, <- app_assoc.
  done.
Qed.

Lemma timed_command_then_release_witness :
  let w1 := (toggle_device env0 "fan" "Toggle" (for_duration 3) 0 initial_world).2 in
  let w2 := thread_step env0 (length (threads initial_world)) DriverOk w1 in
  let back := if bool_decide (PyStr.lower "Toggle" = "on") then "off" else "on" in
  threads w1 = threads initial_world
                 ++ [T_auto_release "fan" back (payload_int (for_duration 3) "duration" 0 0)] ∧
  threads w2 = threads initial_world ∧
  manual_lock w2 !! "fan" = None ∧
  last_decision w2 !! "fan" = Some (VStr back) ∧
  sent w2 = sent initial_world ++ [("fan", PyStr.capitalize (PyStr.lower "Toggle"));
                                   ("fan", PyStr.capitalize back)].
Proof.
  apply (timed_command_then_release env0 "fan" "Toggle" (for_duration 3) 0
           initial_world DriverOk).
  - repeat constructor.
  - vm_compute. repeat constructor.
  - vm_compute; reflexivity.
  - vm_compute; reflexivity.
Defined.

(** X18.  A negative duration is accepted and gives a lock that is void
    from the start: the lock entry is written with an expiry behind the
    clock, no release thread is started, and no tick at or after the command
    finds the lock active. *)
Theorem negative_duration_lock_is_void (env : environ) (dev action : string)
    (payload : option (gmap string Z)) (now now' : Z) (w : world) :
  dev ∈ ["fan"; "light"] →
  PyStr.lower action ∈ ["on"; "off"; "toggle"] →
  has_ip env dev = true →
  payload_int payload "duration" 0 0 < 0 →
  now <= now' →
  let w1 := (toggle_device env dev action payload now w).2 in
  threads w1 = threads w ∧
  (∃ ls t, manual_lock w1 !! dev = Some (ls, At t) ∧ t < now) ∧
  override_active w1 dev now' = false.
Proof.
  intros Hdev Hact Hip Hd Hnow. cbv zeta.
  rewrite (toggle_device_accepted env dev action payload now w Hdev Hact Hip). cbv zeta.
  set (dur := payload_int payload "duration" 0 0) in *.
  destruct (Z.ltb_spec 0 dur) as [|_]; [lia|].
  destruct (Z.eqb_spec dur 0) as [|_]; [lia|].
  unfold override_active. simpl. rewrite lookup_insert_eq. simpl.
  split; [done|]. split.
  - eexists _, _. split; [reflexivity|]. lia.
  - destruct (Z.ltb_spec now' (now + dur * 60)); [lia|]. apply andb_false_r.
Qed.

Lemma negative_duration_lock_is_void_witness :
  let w1 := (toggle_device env0 "fan" "on" (for_duration (-1)) 100 initial_world).2 in
  threads w1 = threads initial_world ∧
  (∃ ls t, manual_lock w1 !! "fan" = Some (ls, At t) ∧ t < 100) ∧
  override_active w1 "fan" 100 = false.
Proof.
  apply (negative_duration_lock_is_void env0 "fan" "on" (for_duration (-1)) 100 100
           initial_world).
  - repeat constructor.
  - vm_compute. repeat constructor.
  - vm_compute; reflexivity.
  - vm_compute; reflexivity.
  - lia.
Defined.

(** ** What the relays are ever sent *)

Section wire.
Context (env : environ).

Lemma rejected_command_unchanged dev action payload now w :
  (PyStr.lower action ∉ ["on"; "off"; "toggle"] →
     toggle_device env dev action payload now w
       = (Returns (ActionError "action must be on/off/toggle"), w)) ∧
  (PyStr.lower action ∈ ["on"; "off"; "toggle"] → has_ip env dev = false →
     toggle_device env dev action payload now w = (Raises ValueError, w)).
Proof.
  split.
  - intros Hact. unfold toggle_device. by rewrite (bool_decide_eq_false_2 _ Hact).
  - intros Hact Hip. unfold toggle_device.
    rewrite (bool_decide_eq_true_2 _ Hact). cbn [negb]. unfold bind.
    by rewrite tas_cmd_fail.
Qed.

Lemma sent_ok_same w w' :
  sent w' = sent w → sent_ok env w → sent_ok env w'.
Proof. intros Heq H dev c Hin. rewrite Heq in Hin. by apply H. Qed.

Lemma sent_ok_snoc w w' dev c :
  sent w' = sent w ++ [(dev, c)] →
  has_ip env dev = true → c ∈ power_commands →
  sent_ok env w → sent_ok env w'.
Proof.
  intros Heq Hip Hc H dev' c' Hin. rewrite Heq in Hin.
  apply elem_of_app in Hin as [Hin|Hin]; [by apply H|].
  apply list_elem_of_singleton in Hin. by simplify_eq.
Qed.

Lemma power_of_command v : power_of v ∈ power_commands.
Proof. unfold power_of. destruct (eq_str v "on"); repeat constructor. Qed.

Lemma body_sent_ok d now dev fd w :
  sent_ok env w → sent_ok env (fan_light_body env d now dev fd w).2.
Proof.
  intros H. unfold fan_light_body, drive_relay, bind, gets, lock_get, getitem, tas_cmd.
  assert (∀ v w', sent w' = sent w ++ [(dev, power_of v)] →
            has_ip env dev = true → sent_ok env w') as Hsend.
  { intros v w' Heq Hip. by apply (sent_ok_snoc w w' dev (power_of v) Heq Hip (power_of_command v)). }
  destruct (manual_lock w !! dev) as [[ls e]|] eqn:Hl; simpl.
  - destruct (PyStr.truthy ls && lt_expiry now e); simpl; [done|].
    destruct (d !! dev) as [v|]; simpl; [|done].
    destruct (has_ip env dev) eqn:Hip; simpl; [|done].
    rewrite Hl. simpl. destruct (ge_expiry now e); simpl; by apply (Hsend v).
  - destruct (d !! dev) as [v|]; simpl; [|done].
    destruct (has_ip env dev) eqn:Hip; simpl; [|done].
    rewrite Hl. simpl. by apply (Hsend v).
Qed.

Lemma loop_sent_ok d now devs fd w :
  sent_ok env w → sent_ok env (fan_light_loop env d now devs fd w).2.
Proof.
  revert fd w. induction devs as [|dev devs IH]; intros fd w H; simpl; [done|].
  unfold bind. pose proof (body_sent_ok d now dev fd w H) as Hb.
  destruct (fan_light_body env d now dev fd w) as [[fd1|x] w1]; simpl in *; [|done].
  by apply IH.
Qed.

Lemma releases_ok_same w w' :
  threads w' = threads w → releases_ok w → releases_ok w'.
Proof. intros Heq H dev desired m Hin. rewrite Heq in Hin. by apply (H dev desired m). Qed.

Lemma releases_ok_snoc w w' t :
  threads w' = threads w ++ [t] →
  (∀ dev desired m, t = T_auto_release dev desired m → desired = "on" ∨ desired = "off") →
  releases_ok w → releases_ok w'.
Proof.
  intros Heq Ht H dev desired m Hin. rewrite Heq in Hin.
  apply elem_of_app in Hin as [Hin|Hin]; [by apply (H dev desired m)|].
  apply list_elem_of_singleton in Hin. by apply (Ht dev desired m).
Qed.

Lemma tick_wire_ok content now w :
  sent_ok env w ∧ releases_ok w →
  sent_ok env (decide_actuators env content now w).2 ∧
  releases_ok (decide_actuators env content now w).2.
Proof.
  intros [Hs Hr]. destruct content as [d|]; [|done].
  destruct (has_all_keys d) eqn:Hk; [|by unfold decide_actuators; rewrite Hk].
  rewrite (tick_unfold env now d w Hk).
  destruct (has_all_keys_lookup d "pump" Hk) as [p Hp]; [repeat constructor|].
  pose proof (loop_sent_ok d now ["fan"; "light"] d w Hs) as Hs1.
  destruct (loop_frame env d now ["fan"; "light"] d w) as (_ & Hth & _).
  destruct (fan_light_loop env d now ["fan"; "light"] d w) as [[fd1|x] w1]; simpl in *.
  - rewrite (pump_branch_spec d fd1 w1 p Hp).
    destruct (eq_str p "on" && _); [|destruct (eq_str p "off")]; simpl;
      (split; [by apply (sent_ok_same w1)|]).
    + apply (releases_ok_snoc w _ (T_run_pump PUMP_DURATION false)); [by simpl; rewrite Hth|done|done].
    + by apply (releases_ok_same w).
    + by apply (releases_ok_same w).
  - split; [done|]. by apply (releases_ok_same w).
Qed.

Lemma capitalize_accepted a :
  a ∈ ["on"; "off"; "toggle"] → PyStr.capitalize a ∈ power_commands.
Proof. intros [-> | [-> | ->]]%accepted_action_cases; repeat constructor. Qed.

Lemma toggle_wire_ok dev action payload now w :
  sent_ok env w ∧ releases_ok w →
  sent_ok env (toggle_device env dev action payload now w).2 ∧
  releases_ok (toggle_device env dev action payload now w).2.
Proof.
  intros [Hs Hr].
  destruct (decide (PyStr.lower action ∈ ["on"; "off"; "toggle"])) as [Hact|Hact].
  2:{ by rewrite (proj1 (rejected_command_unchanged dev action payload now w) Hact). }
  destruct (has_ip env dev) eqn:Hip.
  2:{ by rewrite (proj2 (rejected_command_unchanged dev action payload now w) Hact Hip). }
  rewrite (toggle_device_accepted env dev action payload now w
             (has_ip_fan_light env dev Hip) Hact Hip). cbv zeta.
  destruct (0 <? payload_int payload "duration" 0 0); simpl; split.
  - eapply (sent_ok_snoc w); [reflexivity|done|by apply capitalize_accepted|done].
  - eapply (releases_ok_snoc w); [reflexivity| |done].
    intros ? ? ? [= _ <- _]. destruct (bool_decide _); auto.
  - eapply (sent_ok_snoc w); [reflexivity|done|by apply capitalize_accepted|done].
  - by apply (releases_ok_same w).
Qed.

Lemma release_not_inserted (ts : list task) i t dev desired m :
  (∀ dev' desired' m', t ≠ T_auto_release dev' desired' m') →
  T_auto_release dev desired m ∈ <[i := t]> ts → T_auto_release dev desired m ∈ ts.
Proof.
  intros Hne Hin. apply list_elem_of_lookup in Hin as [j Hj].
  destruct (decide (i = j)) as [->|Hij].
  - destruct (decide (j < length ts)%nat) as [Hlt|Hge].
    + rewrite list_lookup_insert_eq in Hj by done. injection Hj as Hj.
      by destruct (Hne dev desired m).
    + rewrite list_insert_ge in Hj by lia. apply list_elem_of_lookup. eauto.
  - rewrite list_lookup_insert_ne in Hj by done. apply list_elem_of_lookup. eauto.
Qed.

Lemma thread_wire_ok i drv w :
  sent_ok env w ∧ releases_ok w →
  sent_ok env (thread_step env i drv w) ∧ releases_ok (thread_step env i drv w).
Proof.
  intros [Hs Hr]. unfold thread_step.
  destruct (threads w !! i) as [[dur [] | s [] | dev desired m]|] eqn:Hi; [..|done].
  - split; [destruct drv; by apply (sent_ok_same w); [reflexivity|]|].
    intros dev desired m Hin. apply list_elem_of_delete_inv in Hin.
    destruct drv; by apply (Hr dev desired m).
  - split; [by apply (sent_ok_same w); [reflexivity|]|].
    intros dev desired m Hin.
    apply release_not_inserted in Hin; [by apply (Hr dev desired m)|done].
  - split; [destruct drv; by apply (sent_ok_same w); [reflexivity|]|].
    intros dev desired m Hin. apply list_elem_of_delete_inv in Hin.
    destruct drv; by apply (Hr dev desired m).
  - split; [by apply (sent_ok_same w); [reflexivity|]|].
    intros dev desired m Hin.
    apply release_not_inserted in Hin; [by apply (Hr dev desired m)|done].
  - assert (desired = "on" ∨ desired = "off") as Hdes.
    { apply (Hr dev desired m). apply list_elem_of_lookup. eauto. }
    assert (releases_ok (set_threads (delete i) w)) as Hr'.
    { intros dev' desired' m' Hin. apply list_elem_of_delete_inv in Hin.
      by apply (Hr dev' desired' m'). }
    destruct (has_ip env dev) eqn:Hip.
    + rewrite auto_release_unconditional by done. simpl. split.
      * eapply (sent_ok_snoc w); [reflexivity|done| |done].
        destruct Hdes as [-> | ->]; repeat constructor.
      * by apply (releases_ok_same (set_threads (delete i) w)).
    + unfold _auto_release, bind. rewrite tas_cmd_fail by done. simpl.
      split; [by apply (sent_ok_same w)|done].
Qed.

End wire.

Lemma reachable_run env es w : reachable env w → reachable env (run env es w).
Proof.
  revert w. induction es as [|e es IH]; intros w H; [done|].
  apply (IH (step env w e)). by apply reachable_step.
Qed.

(** X19.  In every state the process can reach, every relay command that
    has been sent went to fan or light, to a relay with an address, and was
    one of On, Off, Toggle; the pump never gets a relay command, and every
    release thread waits to fall back to on or to off. *)
Theorem reachable_wire_ok (env : environ) (w : world) :
  reachable env w →
  (∀ dev c, (dev, c) ∈ sent w →
     dev ∈ ["fan"; "light"] ∧ has_ip env dev = true ∧ c ∈ ["On"; "Off"; "Toggle"]) ∧
  releases_ok w.
Proof.
  intros Hreach.
  assert (sent_ok env w ∧ releases_ok w) as [Hs Hr].
  { induction Hreach as [|w e _ IH].
    - split; [intros ? ? Hin | intros ? ? ? Hin]; inversion Hin.
    - destruct e as [content now | dev action payload now | payload | i drv]; simpl.
      + by apply tick_wire_ok.
      + by apply toggle_wire_ok.
      + destruct IH as [Hs Hr]. split; [by apply (sent_ok_same env w)|].
        by eapply (releases_ok_snoc w); [reflexivity| |].
      + by apply thread_wire_ok. }
  split; [|done]. intros dev c Hin. destruct (Hs dev c Hin) as [Hip Hc].
  split; [by apply (has_ip_fan_light env)|]. done.
Qed.

Lemma reachable_wire_ok_witness :
  let w := run env0 [Toggle "fan" "toggle" (for_duration 1) 0;
                     Tick (Some (answer "on" "on" "on")) 5; Sched 0 DriverOk] initial_world in
  (∀ dev c, (dev, c) ∈ sent w →
     dev ∈ ["fan"; "light"] ∧ has_ip env0 dev = true ∧ c ∈ ["On"; "Off"; "Toggle"]) ∧
  releases_ok w.
Proof.
  apply (reachable_wire_ok env0
           (run env0 [Toggle "fan" "toggle" (for_duration 1) 0;
                      Tick (Some (answer "on" "on" "on")) 5; Sched 0 DriverOk] initial_world)).
  apply reachable_run, reachable_init.
Defined.

(** ** A relay without address *)

Section no_fan_relay.
Context (env : environ) (Hno : has_ip env "fan" = false).

Lemma body_no_relay d now dev fd w v :
  manual_lock w !! dev = None → d !! dev = Some v → has_ip env dev = false →
  fan_light_body env d now dev fd w = (Raises ValueError, w).
Proof.
  intros Hl Hv Hip.
  unfold fan_light_body, drive_relay, bind, gets, lock_get, getitem.
  rewrite Hl. simpl. rewrite Hv. simpl. by rewrite tas_cmd_fail.
Qed.

Lemma tick_without_fan_relay content now w :
  manual_lock w !! "fan" = None →
  (decide_actuators env content now w).2 = w ∧
  (∀ d, content = Some d → has_all_keys d = true →
     (decide_actuators env content now w).1 = Raises ValueError).
Proof.
  intros Hl. destruct content as [d|]; [|done].
  destruct (has_all_keys d) eqn:Hk.
  - rewrite (tick_unfold env now d w Hk).
    destruct (fan_light_keys d "fan" Hk) as [v Hv]; [repeat constructor|].
    change (fan_light_loop env d now ["fan"; "light"] d w)
      with (bind (fan_light_body env d now "fan" d)
              (fun fd => fan_light_loop env d now ["light"] fd) w).
    unfold bind. by rewrite (body_no_relay d now "fan" d w v Hl Hv Hno).
  - unfold decide_actuators. rewrite Hk. simpl. split; [done|].
    intros d0 [= <-] Hk0. congruence.
Qed.

Lemma reachable_fan_never_locked w :
  reachable env w → manual_lock w !! "fan" = None.
Proof.
  induction 1 as [|w e _ IH]; [done|].
  destruct e as [content now | dev action payload now | payload | i drv]; simpl.
  - by rewrite (proj1 (tick_without_fan_relay content now w IH)).
  - destruct (decide (PyStr.lower action ∈ ["on"; "off"; "toggle"])) as [Hact|Hact].
    2:{ by rewrite (proj1 (rejected_command_unchanged env dev action payload now w) Hact). }
    destruct (has_ip env dev) eqn:Hip.
    2:{ by rewrite (proj2 (rejected_command_unchanged env dev action payload now w) Hact Hip). }
    rewrite (toggle_device_accepted env dev action payload now w
               (has_ip_fan_light env dev Hip) Hact Hip). cbv zeta.
    assert (dev ≠ "fan") as Hne by (intros ->; congruence).
    destruct (0 <? payload_int payload "duration" 0 0); simpl; by rewrite lookup_insert_ne.
  - done.
  - unfold thread_step.
    destruct (threads w !! i) as [[dur [] | s [] | dev desired m]|]; [..|done].
    + by destruct drv.
    + done.
    + by destruct drv.
    + done.
    + unfold _auto_release, bind, tas_cmd.
      destruct (has_ip env dev) eqn:Hip; simpl; [|done].
      assert (dev ≠ "fan") as Hne by (intros ->; congruence).
      by rewrite lookup_delete_ne.
Qed.

End no_fan_relay.

(** X20.  With no address for the fan relay the automatic control is
    dead: in every state the process can reach, every well-formed answer of
    the oracle makes the tick raise [ValueError] before anything is done, so
    the control loop, however many iterations it is given, leaves the stored
    states, the locks, the threads and the relays untouched: the light is
    not switched and the pump is not started either. *)
Theorem fan_relay_missing_stops_automation (env : environ) (w : world)
    (ticks : list (option (gmap string value) * Z)) :
  has_ip env "fan" = false →
  reachable env w →
  (run_control_loop env ticks w).2 = w ∧
  (∀ d now, has_all_keys d = true →
     decide_actuators env (Some d) now w = (Raises ValueError, w)).
Proof.
  intros Hno Hreach.
  pose proof (reachable_fan_never_locked env Hno w Hreach) as Hl. split.
  - induction ticks as [|[content now] ticks IH]; simpl; [done|].
    unfold bind.
    pose proof (proj1 (tick_without_fan_relay env Hno content now w Hl)) as Hw.
    destruct (decide_actuators env content now w) as [[fd|x] w1]; simpl in *; by subst.
  - intros d now Hk.
    destruct (tick_without_fan_relay env Hno (Some d) now w Hl) as [Hw Hr].
    specialize (Hr d eq_refl Hk).
    destruct (decide_actuators env (Some d) now w) as [r w1]; simpl in *. by subst.
Qed.

Lemma fan_relay_missing_stops_automation_witness :
  let env := {| FAN_IP := None; LIGHT_IP := Some "192.168.1.51";
                relay := fun _ _ => ReplyJson "{}" |} in
  let w := step env initial_world (Toggle "light" "on" None 0) in
  (run_control_loop env [(Some (answer "on" "off" "on"), 10); (None, 20)] w).2 = w ∧
  (∀ d now, has_all_keys d = true →
     decide_actuators env (Some d) now w = (Raises ValueError, w)).
Proof.
  apply (fan_relay_missing_stops_automation
           {| FAN_IP := None; LIGHT_IP := Some "192.168.1.51";
              relay := fun _ _ => ReplyJson "{}" |}
           (step {| FAN_IP := None; LIGHT_IP := Some "192.168.1.51";
                    relay := fun _ _ => ReplyJson "{}" |}
              initial_world (Toggle "light" "on" None 0))
           [(Some (answer "on" "off" "on"), 10); (None, 20)]).
  - vm_compute; reflexivity.
  - apply reachable_step, reachable_init.
Defined.

(** ** An automatic pump run from start to end *)

Lemma eq_str_false v lit : v ≠ VStr lit → eq_str v lit = false.
Proof.
  destruct v as [| | |s]; simpl; try done.
  intros H. apply bool_decide_eq_false_2. congruence.
Qed.

Lemma pump_thread_enters env drv w ts d :
  threads w = ts ++ [T_run_pump d false] →
  thread_step env (length ts) drv w =
    set_threads (fun _ => ts ++ [T_run_pump d true])
      (set_last_decision (<["pump" := VStr "on"]>) w).
Proof.
  intros Hts. unfold thread_step. rewrite Hts, list_lookup_middle by done.
  unfold _run_pump_enter, modify, set_threads. cbn [snd fst threads last_decision
    manual_lock sent set_last_decision]. f_equal.
  rewrite Hts. replace (length ts) with (length ts + 0)%nat at 1 by lia.
  by rewrite insert_app_r.
Qed.

Lemma pump_thread_leaves env w ts d :
  threads w = ts ++ [T_run_pump d true] →
  thread_step env (length ts) DriverOk w =
    set_threads (fun _ => ts) (set_last_decision (<["pump" := VStr "off"]>) w).
Proof.
  intros Hts. unfold thread_step. rewrite Hts, list_lookup_middle by done.
  unfold _run_pump_leave, blink_led, bind, ret, modify, set_threads.
  cbn [snd fst threads last_decision manual_lock sent set_last_decision]. f_equal.
  by rewrite Hts, delete_middle, app_nil_r.
Qed.

(** X21.  An automatic pump run that the driver completes, from start to
    end: a tick that returns with pump decision on while the stored pump
    state is not on starts one run of [PUMP_DURATION] seconds and stores on;
    the run enters the driver with on stored; when the driver returns, the
    run is gone from the thread table, the stored pump state is off and every
    other stored state is what the tick left. *)
Theorem automatic_pump_cycle (env : environ) (d : gmap string value) (now : Z)
    (w : world) (drv : driver) :
  has_all_keys d = true →
  d !! "pump" = Some (VStr "on") →
  last_decision w !! "pump" ≠ Some (VStr "on") →
  has_ip env "fan" = true → has_ip env "light" = true →
  let w1 := (decide_actuators env (Some d) now w).2 in
  let w2 := thread_step env (length (threads w)) drv w1 in
  let w3 := thread_step env (length (threads w)) DriverOk w2 in
  threads w1 = threads w ++ [T_run_pump PUMP_DURATION false] ∧
  last_decision w1 !! "pump" = Some (VStr "on") ∧
  threads w2 = threads w ++ [T_run_pump PUMP_DURATION true] ∧
  last_decision w2 !! "pump" = Some (VStr "on") ∧
  threads w3 = threads w ∧
  last_decision w3 !! "pump" = Some (VStr "off") ∧
  (∀ k, k ≠ "pump" → last_decision w3 !! k = last_decision w1 !! k).
Proof.
  intros Hk Hp Hidle Hf Hl. cbv zeta.
  rewrite (tick_unfold env now d w Hk).
  destruct (loop_returns env d now ["fan"; "light"] d w) as [fd1 Hr].
  { intros k Hin. by apply fan_light_configured. }
  destruct (loop_frame env d now ["fan"; "light"] d w) as (Hld & Hth & _).
  destruct (fan_light_loop env d now ["fan"; "light"] d w) as [r1 w1]; simpl in *. subst r1.
  rewrite (pump_branch_spec d fd1 w1 _ Hp).
  assert (get_ne_str (last_decision w1) "pump" "on" = true) as ->.
  { unfold get_ne_str. rewrite Hld.
    destruct (last_decision w !! "pump") as [v|]; [|done].
    rewrite eq_str_false; [done|congruence]. }
  simpl.
  rewrite (pump_thread_enters env drv _ (threads w) PUMP_DURATION)
    by (by simpl; rewrite Hth).
  rewrite (pump_thread_leaves env _ (threads w) PUMP_DURATION) by done.
  simpl. rewrite Hth.
  split; [done|]. split; [apply lookup_union_Some_l, lookup_insert_eq|].
  split; [done|]. split; [apply lookup_insert_eq|].
  split; [done|]. split; [apply lookup_insert_eq|].
  intros k Hne. by rewrite !lookup_insert_ne.
Qed.

Lemma automatic_pump_cycle_witness :
  let d := answer "off" "on" "on" in
  let w := initial_world in
  let w1 := (decide_actuators env0 (Some d) 0 w).2 in
  let w2 := thread_step env0 (length (threads w)) DriverOk w1 in
  let w3 := thread_step env0 (length (threads w)) DriverOk w2 in
  threads w1 = threads w ++ [T_run_pump PUMP_DURATION false] ∧
  last_decision w1 !! "pump" = Some (VStr "on") ∧
  threads w2 = threads w ++ [T_run_pump PUMP_DURATION true] ∧
  last_decision w2 !! "pump" = Some (VStr "on") ∧
  threads w3 = threads w ∧
  last_decision w3 !! "pump" = Some (VStr "off") ∧
  (∀ k, k ≠ "pump" → last_decision w3 !! k = last_decision w1 !! k).
Proof.
  apply (automatic_pump_cycle env0 (answer "off" "on" "on") 0 initial_world DriverOk).
  - vm_compute; reflexivity.
  - vm_compute; reflexivity.
  - vm_compute. discriminate.
  - vm_compute; reflexivity.
  - vm_compute; reflexivity.
Defined.

(** ** The light relay without address *)

Section unconfigured.
Context (env : environ) (dev : string) (Hno : has_ip env dev = false).

Lemma tick_keeps_unlocked content now w :
  manual_lock w !! dev = None →
  manual_lock (decide_actuators env content now w).2 !! dev = None.
Proof.
  intros Hl. destruct content as [d|]; [|done].
  destruct (has_all_keys d) eqn:Hk; [|by unfold decide_actuators; rewrite Hk].
  rewrite (tick_unfold env now d w Hk).
  destruct (has_all_keys_lookup d "pump" Hk) as [p Hp]; [repeat constructor|].
  pose proof (loop_locks_shrink env d now ["fan"; "light"] d w dev) as Hs.
  destruct (fan_light_loop env d now ["fan"; "light"] d w) as [[fd1|x] w1]; simpl in *.
  - rewrite (pump_branch_spec d fd1 w1 p Hp).
    destruct (eq_str p "on" && _); [|destruct (eq_str p "off")]; simpl;
      destruct Hs as [Hs | [Hs _]]; congruence.
  - destruct Hs as [Hs | [Hs _]]; congruence.
Qed.

Lemma reachable_never_locked w :
  reachable env w → manual_lock w !! dev = None.
Proof.
  induction 1 as [|w e _ IH]; [done|].
  destruct e as [content now | dev' action payload now | payload | i drv]; simpl.
  - by apply tick_keeps_unlocked.
  - destruct (decide (PyStr.lower action ∈ ["on"; "off"; "toggle"])) as [Hact|Hact].
    2:{ by rewrite (proj1 (rejected_command_unchanged env dev' action payload now w) Hact). }
    destruct (has_ip env dev') eqn:Hip.
    2:{ by rewrite (proj2 (rejected_command_unchanged env dev' action payload now w) Hact Hip). }
    rewrite (toggle_device_accepted env dev' action payload now w
               (has_ip_fan_light env dev' Hip) Hact Hip). cbv zeta.
    assert (dev' ≠ dev) as Hne by (intros ->; congruence).
    destruct (0 <? payload_int payload "duration" 0 0); simpl; by rewrite lookup_insert_ne.
  - done.
  - unfold thread_step.
    destruct (threads w !! i) as [[dur [] | s [] | dev' desired m]|]; [..|done].
    + by destruct drv.
    + done.
    + by destruct drv.
    + done.
    + unfold _auto_release, bind, tas_cmd.
      destruct (has_ip env dev') eqn:Hip; simpl; [|done].
      assert (dev' ≠ dev) as Hne by (intros ->; congruence).
      by rewrite lookup_delete_ne.
Qed.

End unconfigured.

(** X22.  With an address for the fan relay and none for the light relay,
    a well-formed tick does half its work: for a fan without active lock it
    sends the fan its command and then raises [ValueError] at the light, so
    the store does not learn what the fan was told, no pump run starts, and
    the control loop ends. *)
Theorem light_relay_missing_half_tick (env : environ) (w : world)
    (d : gmap string value) (now : Z) (v : value) :
  has_ip env "fan" = true →
  has_ip env "light" = false →
  reachable env w →
  has_all_keys d = true →
  override_active w "fan" now = false →
  d !! "fan" = Some v →
  let r := decide_actuators env (Some d) now w in
  r.1 = Raises ValueError ∧
  sent r.2 = sent w ++ [("fan", power_of v)] ∧
  last_decision r.2 = last_decision w ∧
  threads r.2 = threads w.
Proof.
  intros Hf Hno Hreach Hk Ha Hv. cbv zeta.
  pose proof (reachable_never_locked env "light" Hno w Hreach) as Hl.
  destruct (fan_light_keys d "light" Hk) as [vl Hvl]; [repeat constructor|].
  set (w1 := drop_expired now "fan"
               (set_sent (fun l => l ++ [("fan", power_of v)]) w)).
  assert (manual_lock w1 !! "light" = None ∧ sent w1 = sent w ++ [("fan", power_of v)] ∧
          last_decision w1 = last_decision w ∧ threads w1 = threads w) as (Hl1 & Hs1 & Hd1 & Ht1).
  { subst w1. unfold drop_expired. simpl.
    destruct (manual_lock w !! "fan") as [[ls e]|]; [destruct (ge_expiry now e)|]; simpl;
      repeat split; try done.
    by rewrite lookup_delete_ne. }
  assert (decide_actuators env (Some d) now w = (Raises ValueError, w1)) as ->; [|done].
  rewrite (tick_unfold env now d w Hk).
  change (fan_light_loop env d now ["fan"; "light"] d w)
    with (bind (fan_light_body env d now "fan" d)
            (fun fd => bind (fan_light_body env d now "light" fd)
                         (fun fd' => fan_light_loop env d now [] fd')) w).
  unfold bind. rewrite (body_unlocked env d now "fan" d w v Ha Hv Hf). fold w1.
  by rewrite (body_no_relay env d now "light" d w1 vl Hl1 Hvl Hno).
Qed.

Lemma light_relay_missing_half_tick_witness :
  let env := {| FAN_IP := Some "192.168.1.50"; LIGHT_IP := None;
                relay := fun _ _ => ReplyJson "{}" |} in
  let r := decide_actuators env (Some (answer "on" "on" "on")) 0 initial_world in
  r.1 = Raises ValueError ∧
  sent r.2 = sent initial_world ++ [("fan", power_of (VStr "on"))] ∧
  last_decision r.2 = last_decision initial_world ∧
  threads r.2 = threads initial_world.
Proof.
  apply (light_relay_missing_half_tick
           {| FAN_IP := Some "192.168.1.50"; LIGHT_IP := None;
              relay := fun _ _ => ReplyJson "{}" |}
           initial_world (answer "on" "on" "on") 0 (VStr "on")).
  - vm_compute; reflexivity.
  - vm_compute; reflexivity.
  - apply reachable_init.
  - vm_compute; reflexivity.
  - vm_compute; reflexivity.
  - vm_compute; reflexivity.
Defined.
